(** * light-heap: an intrusive, pointer-linked binary min-heap

    Shallow embedding of [src/heap.h].  Pointers are addresses in [Z]
    ([NULL] is 0); the memory holding the embedded [struct heap_node]
    records is a total function from addresses to records, updated by
    explicit state passing.  [unsigned int] arithmetic is written out
    modulo [2^32], the [unsigned long] traversal cursor modulo [2^64].

    [heap.h] only declares [heap_fixup], [heap_erase], [heap_remove],
    [heap_parent], [heap_find], [heap_level_first] and [heap_level_next];
    their bodies (heap.c) are not part of the sources, so they are
    modelled from the specification (see the doc comments starting with
    "Modelled from the spec"). *)

From Stdlib Require Import ZArith Lia List Bool Permutation Sorted.
Import ListNotations.
Open Scope Z_scope.

Module Heap.

(** ** Data model *)

Definition NULL : Z := 0.

(** [struct heap_node] *)
Record heap_node := mk_node { parent : Z; left : Z; right : Z }.

(** [struct heap_root]; [count] is an [unsigned int]. *)
Record heap_root := mk_root { node : Z; count : Z }.

Definition UINT_MOD : Z := 2 ^ 32.
Definition ULONG_MOD : Z := 2 ^ 64.

(** The memory the heap operates on, and the root it is given. *)
Record state := mk_state { mem : Z -> heap_node; root : heap_root }.

(** A [struct heap_node **link]: the address of [root->node], of
    [p->left] or of [p->right]. *)
Inductive link := RootLink | LeftLink (p : Z) | RightLink (p : Z).

(** [heap_cmp_t]: the caller's comparator on node addresses. *)
Definition heap_cmp_t := Z -> Z -> Z.

(** [POISON_HPNODE1..3], with the default [POISON_OFFSET] of 0. *)
Definition POISON_OFFSET : Z := 0.
Definition POISON_HPNODE1 : Z := POISON_OFFSET + 0x10.
Definition POISON_HPNODE2 : Z := POISON_OFFSET + 0x20.
Definition POISON_HPNODE3 : Z := POISON_OFFSET + 0x30.

(** ** Memory primitives *)

Definition upd (m : Z -> heap_node) (a : Z) (v : heap_node) : Z -> heap_node :=
  fun x => if Z.eqb x a then v else m x.

(** [a->parent = v], [a->left = v], [a->right = v]. *)
Definition set_parent (st : state) (a v : Z) : state :=
  let nd := mem st a in
  mk_state (upd (mem st) a (mk_node v (left nd) (right nd))) (root st).

Definition set_left (st : state) (a v : Z) : state :=
  let nd := mem st a in
  mk_state (upd (mem st) a (mk_node (parent nd) v (right nd))) (root st).

Definition set_right (st : state) (a v : Z) : state :=
  let nd := mem st a in
  mk_state (upd (mem st) a (mk_node (parent nd) (left nd) v)) (root st).

Definition set_root_node (st : state) (v : Z) : state :=
  mk_state (mem st) (mk_root v (count (root st))).

Definition set_count (st : state) (c : Z) : state :=
  mk_state (mem st) (mk_root (node (root st)) c).

(** [*link = v] and [*link]. *)
Definition write_link (st : state) (l : link) (v : Z) : state :=
  match l with
  | RootLink => set_root_node st v
  | LeftLink p => set_left st p v
  | RightLink p => set_right st p v
  end.

Definition read_link (st : state) (l : link) : Z :=
  match l with
  | RootLink => node (root st)
  | LeftLink p => left (mem st p)
  | RightLink p => right (mem st p)
  end.

(** [HEAP_EMPTY_ROOT], [HEAP_EMPTY_NODE], [HEAP_CLEAR_NODE]. *)
Definition HEAP_EMPTY_ROOT (st : state) : bool := node (root st) =? NULL.
Definition HEAP_EMPTY_NODE (st : state) (n : Z) : bool := parent (mem st n) =? n.
Definition HEAP_CLEAR_NODE (st : state) (n : Z) : state := set_parent st n n.

(** [HEAP_INIT]: an empty root over an arbitrary memory. *)
Definition HEAP_INIT : heap_root := mk_root NULL 0.

(** ** Optional debug hooks ([DEBUG_HEAP])

    [None] is the default build (DEBUG_HEAP undefined); [Some d] the
    debug build with the caller's [heap_debug_link_check] and
    [heap_debug_delete_check]. *)
Record heap_debug := mk_debug {
  heap_debug_link_check : state -> Z -> link -> Z -> bool;
  heap_debug_delete_check : state -> Z -> bool
}.

Definition link_check (dbg : option heap_debug) (st : state) (par : Z) (l : link) (n : Z) : bool :=
  match dbg with None => true | Some d => heap_debug_link_check d st par l n end.

Definition delete_check (dbg : option heap_debug) (st : state) (n : Z) : bool :=
  match dbg with None => true | Some d => heap_debug_delete_check d st n end.

(** ** [heap_link] (heap.h, lines 172-185) *)
Definition heap_link (dbg : option heap_debug) (st : state) (par : Z) (l : link) (n : Z) : state :=
  if negb (link_check dbg st par l n) then st else
  let st := write_link st l n in
  let st := set_parent st n par in
  (* node->left = node->right = NULL: the right field is assigned first *)
  let st := set_right st n NULL in
  let st := set_left st n NULL in
  set_count st ((count (root st) + 1) mod UINT_MOD).

(** The node whose field a [link] designates ([NULL] for the root slot). *)
Definition link_owner (l : link) : Z :=
  match l with RootLink => NULL | LeftLink p => p | RightLink p => p end.

(** ** Shape navigator *)

Definition child (nd : heap_node) (b : bool) : Z := if b then right nd else left nd.

(** Descend from [cur] reading the bits of [r] at positions [k], [k-1],
    ..., [1] (most significant first): 0 goes left, 1 goes right. *)
Fixpoint heap_path (m : Z -> heap_node) (cur r : Z) (k : nat) : Z :=
  match k with
  | O => cur
  | S k' => heap_path m (child (m cur) (Z.testbit r (Z.of_nat k))) r k'
  end.

(** Modelled from the spec: the body of [heap_parent] (heap.c, not in
    the sources), section 4.1.  The leading 1 of [r] is the root; the
    bits below it, except the last, walk down to the direct parent; the
    last bit chooses its [left] or [right] slot.  Rank 1 is the root slot
    [&root->node], with no parent. *)
Definition heap_parent_rank (st : state) (r : Z) : Z * link :=
  if r <=? 1 then (NULL, RootLink) else
  let p := heap_path (mem st) (node (root st)) r (Z.to_nat (Z.log2 r - 1)) in
  (p, if Z.testbit r 0 then RightLink p else LeftLink p).

(** Modelled from the spec: [heap_parent(root, &parent, node)] resolves
    the insertion rank [count + 1] ([unsigned int]). *)
Definition heap_parent (st : state) (n : Z) : Z * link :=
  heap_parent_rank st ((count (root st) + 1) mod UINT_MOD).

(** Modelled from the spec: [heap_find(root, index)] (section 4.5);
    none ([NULL]) for rank 0, a rank above [count], or an empty root. *)
Definition heap_find (st : state) (r : Z) : Z :=
  if (r <=? 0) || (count (root st) <? r) || (node (root st) =? NULL) then NULL
  else read_link st (snd (heap_parent_rank st r)).

(** Modelled from the spec: the companion rank lookup of section 4.1,
    walking from the node up to the root: a left edge is a 0 bit, a
    right edge a 1 bit, under a leading 1.  The walk is bounded by the
    node count, which no path in the tree exceeds. *)
Fixpoint heap_rank_walk (m : Z -> heap_node) (n : Z) (fuel : nat) : Z :=
  match fuel with
  | O => 1
  | S f =>
      let p := parent (m n) in
      if p =? NULL then 1
      else 2 * heap_rank_walk m p f + (if left (m p) =? n then 0 else 1)
  end.

Definition heap_rank (st : state) (n : Z) : Z :=
  heap_rank_walk (mem st) n (Z.to_nat (count (root st))).

(** ** Level-order view

    The node of rank [q] (1-based) of a level-order list, [NULL] out of
    range; and the list of the nodes a root reaches at ranks 1..count,
    read through [heap_find]. *)
Definition at_rank (arr : list Z) (q : Z) : Z :=
  if (1 <=? q) && (q <=? Z.of_nat (length arr)) then nth (Z.to_nat (q - 1)) arr NULL
  else NULL.

Definition tabulate (f : Z -> Z) (n : nat) : list Z :=
  map (fun i => f (Z.of_nat i)) (seq 1 n).

Definition heap_decode (st : state) : list Z :=
  tabulate (heap_find st) (Z.to_nat (count (root st))).

Fixpoint index_of (x : Z) (l : list Z) : option nat :=
  match l with
  | [] => None
  | y :: l' => if x =? y then Some O else option_map S (index_of x l')
  end.

(** The links of the node at rank [q] of a complete tree laid out as [arr]:
    parent at [q/2], children at [2q] and [2q+1]. *)
Definition slot_of (arr : list Z) (q : Z) : heap_node :=
  mk_node (at_rank arr (q / 2)) (at_rank arr (2 * q)) (at_rank arr (2 * q + 1)).

(** Re-point the links of every node of [arr] (and [root->node]) so the
    tree has the level-order layout [arr]; other records are untouched. *)
Definition relink (st : state) (arr : list Z) : state :=
  mk_state
    (fun x => match index_of x arr with
              | Some i => slot_of arr (Z.of_nat i + 1)
              | None => mem st x
              end)
    (mk_root (at_rank arr 1) (count (root st))).

(** Modelled from the spec: the position exchange of two linked nodes used
    by Fixup and Erase (section 4.2: "the nodes themselves swap physical
    slots"): the nodes at the ranks of [a] and [b] trade places and every
    neighbouring link is re-pointed. *)
Definition heap_swap (st : state) (a b : Z) : state :=
  let arr := heap_decode st in
  let i := heap_rank st a in
  let j := heap_rank st b in
  relink st (tabulate (fun q => if q =? i then at_rank arr j
                                else if q =? j then at_rank arr i
                                else at_rank arr q) (length arr)).

(** ** Heap-order maintainer *)

(** Modelled from the spec: [heap_fixup] (section 4.2): while the node is
    strictly less than its parent, exchange it with the parent.  Each
    step moves the node one level up, so [count] steps suffice. *)
Fixpoint heap_fixup_loop (cmp : heap_cmp_t) (fuel : nat) (st : state) (n : Z) : state :=
  match fuel with
  | O => st
  | S f =>
      let p := parent (mem st n) in
      if p =? NULL then st
      else if cmp n p <? 0 then heap_fixup_loop cmp f (heap_swap st p n) n
      else st
  end.

Definition heap_fixup (st : state) (n : Z) (cmp : heap_cmp_t) : state :=
  heap_fixup_loop cmp (Z.to_nat (count (root st))) st n.

(** Modelled from the spec: [heap_erase] (section 4.2): compare against
    the smaller existing child (the right one only when strictly smaller);
    if that child is strictly less, exchange with it; stop at a leaf. *)
Fixpoint heap_erase_loop (cmp : heap_cmp_t) (fuel : nat) (st : state) (n : Z) : state :=
  match fuel with
  | O => st
  | S f =>
      let l := left (mem st n) in
      if l =? NULL then st else
      let r := right (mem st n) in
      let succ := if negb (r =? NULL) && (cmp r l <? 0) then r else l in
      if cmp succ n <? 0 then heap_erase_loop cmp f (heap_swap st n succ) n
      else st
  end.

Definition heap_erase (st : state) (n : Z) (cmp : heap_cmp_t) : state :=
  heap_erase_loop cmp (Z.to_nat (count (root st))) st n.

(** ** Removal engine *)

(** Modelled from the spec: [heap_remove] (section 4.3).  The last node
    (rank [count]) is located through the navigator.  If it is the node
    removed, its slot is cleared and nothing is returned ([NULL]);
    otherwise the last node takes the removed node's slot (its parent and
    children re-pointed to it) and is returned for rebalancing.  The
    count is decremented in both cases.  The removed node's own links are
    left as they were. *)
Definition heap_remove (st : state) (n : Z) : state * Z :=
  let cnt := count (root st) in
  let last := heap_find st cnt in
  if last =? n then
    (set_count (write_link st (snd (heap_parent_rank st cnt)) NULL)
               ((cnt - 1) mod UINT_MOD), NULL)
  else
    let arr := heap_decode st in
    let k := heap_rank st n in
    let arr' := tabulate (fun q => if q =? k then last else at_rank arr q)
                         (Z.to_nat cnt - 1) in
    (set_count (relink st arr') ((cnt - 1) mod UINT_MOD), last).

(** ** [heap_insert_node], [heap_insert], [heap_delete] (heap.h) *)

Definition heap_insert_node (dbg : option heap_debug) (st : state) (par : Z) (l : link)
    (n : Z) (cmp : heap_cmp_t) : state :=
  heap_fixup (heap_link dbg st par l n) n cmp.

Definition heap_insert (dbg : option heap_debug) (st : state) (n : Z) (cmp : heap_cmp_t) : state :=
  let '(par, l) := heap_parent st n in
  heap_insert_node dbg st par l n cmp.

Definition heap_delete (dbg : option heap_debug) (st : state) (n : Z) (cmp : heap_cmp_t) : state :=
  if negb (delete_check dbg st n) then st else
  let '(st, rebalance) := heap_remove st n in
  let st := if negb (rebalance =? NULL) then heap_erase st rebalance cmp else st in
  let st := set_left st n POISON_HPNODE1 in
  let st := set_right st n POISON_HPNODE2 in
  set_parent st n POISON_HPNODE3.

(** ** Level-order traversal *)

(** Modelled from the spec: [heap_level_first] (section 4.4): the cursor
    is set to 1 and the root node (rank 1) is returned, [NULL] if empty. *)
Definition heap_level_first (st : state) : Z * Z :=
  (node (root st), 1).

(** Modelled from the spec: [heap_level_next]: the cursor is incremented
    ([unsigned long]) and the new rank resolved through the navigator;
    [NULL] once it exceeds the count. *)
Definition heap_level_next (st : state) (index : Z) : Z * Z :=
  let index := (index + 1) mod ULONG_MOD in
  (heap_find st index, index).

(** The body of [heap_for_each_from]: visit [pos], then step with
    [heap_level_next] until it yields [NULL]; [fuel] bounds the loop. *)
Fixpoint heap_for_each_from (fuel : nat) (st : state) (pos index : Z) : list Z :=
  match fuel with
  | O => []
  | S f =>
      if pos =? NULL then []
      else pos :: (let '(pos', index') := heap_level_next st index in
                   heap_for_each_from f st pos' index')
  end.

(** [heap_for_each]: start with [heap_level_first]. *)
Definition heap_for_each (fuel : nat) (st : state) : list Z :=
  let '(pos, index) := heap_level_first st in heap_for_each_from fuel st pos index.

(** [heap_for_each_continue]: resume with [heap_level_next] from a saved cursor. *)
Definition heap_for_each_continue (fuel : nat) (st : state) (index : Z) : list Z :=
  let '(pos, index') := heap_level_next st index in heap_for_each_from fuel st pos index'.

(** The cursor state ([pos], [index]) after [heap_level_first] and [k]
    calls of [heap_level_next]. *)
Fixpoint heap_level_iter (st : state) (k : nat) : Z * Z :=
  match k with
  | O => heap_level_first st
  | S k' => heap_level_next st (snd (heap_level_iter st k'))
  end.

(** The order invariant, read on the links: every linked node [n] whose
    [parent] is [p] has [cmp p n <= 0]. *)
Definition heap_ordered (cmp : heap_cmp_t) (st : state) : bool :=
  forallb (fun n => let p := parent (mem st n) in (p =? NULL) || (cmp p n <=? 0))
          (heap_decode st).

(** The shape and count invariants: the memory and the root hold a complete
    tree whose level-order layout is [arr], a list of distinct, non-NULL
    node addresses; [count] is its length. *)
Definition heap_shape (st : state) (arr : list Z) : Prop :=
  count (root st) = Z.of_nat (length arr) /\
  Z.of_nat (length arr) < UINT_MOD /\
  node (root st) = at_rank arr 1 /\
  NoDup arr /\ ~ In NULL arr /\
  (forall q, 1 <= q <= Z.of_nat (length arr) -> mem st (at_rank arr q) = slot_of arr q).

(** The order invariant read through a key: the comparators of the
    examples ([heap_test_cmp], [bench_cmp]) return a negative value exactly
    when the first node's key is smaller, and every linked node's key is
    at least its parent's. *)
Definition heap_key_ordered (key : Z -> Z) (st : state) : bool :=
  forallb (fun n => let p := parent (mem st n) in (p =? NULL) || (key p <=? key n))
          (heap_decode st).

(** ** Client loops

    Inserting a list of nodes one after the other, and deleting a list of
    nodes one after the other, as the examples do. *)
Definition heap_insert_seq (st : state) (l : list Z) (cmp : heap_cmp_t) : state :=
  fold_left (fun st n => heap_insert None st n cmp) l st.

Definition heap_delete_seq (st : state) (l : list Z) (cmp : heap_cmp_t) : state :=
  fold_left (fun st n => heap_delete None st n cmp) l st.

(** ** A decision procedure for [heap_shape] *)

Fixpoint nodupb (l : list Z) : bool :=
  match l with
  | [] => true
  | x :: l => negb (existsb (Z.eqb x) l) && nodupb l
  end.

Definition node_eqb (a b : heap_node) : bool :=
  (parent a =? parent b) && (left a =? left b) && (right a =? right b).

Definition heap_shapeb (st : state) (arr : list Z) : bool :=
  (count (root st) =? Z.of_nat (length arr)) &&
  (Z.of_nat (length arr) <? UINT_MOD) &&
  (node (root st) =? at_rank arr 1) &&
  nodupb arr && negb (existsb (Z.eqb NULL) arr) &&
  forallb (fun q => node_eqb (mem st (at_rank arr q)) (slot_of arr q))
          (map Z.of_nat (seq 1 (length arr))).

End Heap.

(** * A concrete run

    The nodes of [examples/selftest.c] ([struct heap_test_node]) at the
    addresses 101 to 107, with the keys [num] below, ordered by the
    example's [heap_test_cmp]. *)
Module HeapScenario.
Import Heap.

Definition node_keys : list (Z * Z) :=
  [(101, 1); (102, 10); (103, 2); (104, 11); (105, 12); (106, 3); (107, 4)].

Definition num (a : Z) : Z :=
  match find (fun p => fst p =? a) node_keys with Some (_, k) => k | None => 0 end.

(** [heap_test_cmp]: [nodea->num < nodeb->num ? -1 : 1]. *)
Definition heap_test_cmp (a b : Z) : Z := if num a <? num b then -1 else 1.

Definition nodes : list Z := map fst node_keys.

(** [HEAP_ROOT(heap_root)] over memory whose nodes are not yet linked. *)
Definition st0 : state := mk_state (fun _ => mk_node NULL NULL NULL) HEAP_INIT.

(** The seven nodes inserted in order. *)
Definition st_ins : state := heap_insert_seq st0 nodes heap_test_cmp.

(** Then the node of key 11 (rank 4, not the last node) deleted. *)
Definition st_del : state := heap_delete None st_ins 104 heap_test_cmp.


End HeapScenario.

(** * The example programs *)
Module HeapExamples.
Import Heap.

(** [test_deepth] (examples/benchmark.c, lines 48-58): the height of the
    subtree under [node]; [fuel] bounds the recursion. *)
Fixpoint test_deepth (fuel : nat) (m : Z -> heap_node) (n : Z) : Z :=
  match fuel with
  | O => 0
  | S f =>
      if n =? NULL then 0 else
      let left_deepth := test_deepth f m (left (m n)) in
      let right_deepth := test_deepth f m (right (m n)) in
      if left_deepth >? right_deepth then (left_deepth + 1) mod UINT_MOD
      else (right_deepth + 1) mod UINT_MOD
  end.

(** The deletion loop of examples/benchmark.c (lines 115-119):
    [while (bench_root.count)] delete [bench_root.node]; the deleted nodes
    in the order of deletion. *)
Fixpoint heap_drain (fuel : nat) (st : state) (cmp : heap_cmp_t) : state * list Z :=
  match fuel with
  | O => (st, [])
  | S f =>
      if count (root st) =? 0 then (st, []) else
      let n := node (root st) in
      let '(st', out) := heap_drain f (heap_delete None st n cmp) cmp in
      (st', n :: out)
  end.

(** examples/selftest.c (src/unnamed/part_000) *)
Definition TEST_LOOP : Z := 10.

(** The body of the first loop of [heap_test_testing] (lines 43-49):
    [heap_for_each] printing each node, leaving the loop with [break] once
    [count++ == TEST_LOOP / 2] ([count] is an [unsigned long]).  Returns
    the printed nodes and the final [hpnode], [index] and [count]. *)
Fixpoint selftest_break_loop (fuel : nat) (st : state) (pos index count : Z)
    : list Z * Z * Z * Z :=
  match fuel with
  | O => ([], pos, index, count)
  | S f =>
      if pos =? NULL then ([], pos, index, count) else
      let count' := (count + 1) mod ULONG_MOD in
      if count =? TEST_LOOP / 2 then ([pos], pos, index, count') else
      let '(pos', index') := heap_level_next st index in
      let '(out, p, i, c) := selftest_break_loop f st pos' index' count' in
      (pos :: out, p, i, c)
  end.

Definition selftest_for_each_break (fuel : nat) (st : state) : list Z * Z * Z * Z :=
  let '(pos, index) := heap_level_first st in selftest_break_loop fuel st pos index 0.

(** The six traversal loops of [heap_test_testing] (lines 43-82), each as
    the list of nodes it prints.  The [_continue] loops start from the
    saved [index]; the [_from] loops start from the saved node and cursor
    ([hpnode = thpnode; index = tindex]); the last one is passed [&count],
    the counter of the loop with the [break], as its cursor.  [node] is the
    first member of [struct heap_test_node], so [heap_entry_safe] gives the
    address of the [heap_node] itself and the [_entry] loops run as the
    plain ones. *)
Definition selftest_traversals (fuel : nat) (st : state) : list (list Z) :=
  let '(out1, hpnode, index, _) := selftest_for_each_break fuel st in
  let out2 := heap_for_each_continue fuel st index in
  let out3 := heap_for_each_from fuel st hpnode index in
  let '(out4, node, index4, count4) := selftest_for_each_break fuel st in
  let out5 := heap_for_each_continue fuel st index4 in
  let out6 := heap_for_each_from fuel st node count4 in
  [out1; out2; out3; out4; out5; out6].

End HeapExamples.

(** * Facts about the level-order view and the navigator *)
Module HeapFacts.
Import Heap.

(** Linear arithmetic with division and remainder by constants. *)
Ltac lia_div := Z.div_mod_to_equations; lia.

Lemma at_rank_out (arr : list Z) (q : Z) :
  q < 1 \/ Z.of_nat (length arr) < q -> at_rank arr q = NULL.
Proof.
  intros H. unfold at_rank.
  destruct (1 <=? q) eqn:E1; destruct (q <=? Z.of_nat (length arr)) eqn:E2;
    simpl; auto; lia.
Qed.

Lemma at_rank_in (arr : list Z) (q : Z) :
  1 <= q <= Z.of_nat (length arr) -> at_rank arr q = nth (Z.to_nat (q - 1)) arr NULL.
Proof.
  intros H. unfold at_rank.
  replace ((1 <=? q) && (q <=? Z.of_nat (length arr))) with true; auto.
  symmetry. apply andb_true_iff. split; apply Z.leb_le; lia.
Qed.

Lemma at_rank_In (arr : list Z) (q : Z) :
  1 <= q <= Z.of_nat (length arr) -> In (at_rank arr q) arr.
Proof.
  intros H. rewrite at_rank_in by exact H. apply nth_In. lia.
Qed.

Lemma In_at_rank (arr : list Z) (x : Z) :
  In x arr -> exists q, 1 <= q <= Z.of_nat (length arr) /\ at_rank arr q = x.
Proof.
  intros H. destruct (In_nth arr x NULL H) as [i [Hi Hx]].
  exists (Z.of_nat i + 1). split; [lia|].
  rewrite at_rank_in by lia. rewrite <- Hx. f_equal. lia.
Qed.

Lemma at_rank_inj (arr : list Z) (q1 q2 : Z) :
  NoDup arr ->
  1 <= q1 <= Z.of_nat (length arr) -> 1 <= q2 <= Z.of_nat (length arr) ->
  at_rank arr q1 = at_rank arr q2 -> q1 = q2.
Proof.
  intros Hnd H1 H2 E. rewrite !at_rank_in in E by assumption.
  apply (proj1 (NoDup_nth arr NULL)) in E; [lia | exact Hnd | lia | lia].
Qed.

Lemma at_rank_nonnull (arr : list Z) (q : Z) :
  ~ In NULL arr -> 1 <= q <= Z.of_nat (length arr) -> at_rank arr q <> NULL.
Proof.
  intros Hn H E. apply Hn. rewrite <- E. apply at_rank_In, H.
Qed.

(** A rank whose node is not [NULL] is in range. *)
Lemma at_rank_range (arr : list Z) (q : Z) :
  at_rank arr q <> NULL -> 1 <= q <= Z.of_nat (length arr).
Proof.
  intros H. destruct (Z_lt_le_dec q 1) as [Hq|Hq].
  - exfalso. apply H, at_rank_out. lia.
  - destruct (Z_lt_le_dec (Z.of_nat (length arr)) q) as [Hq'|Hq'].
    + exfalso. apply H, at_rank_out. lia.
    + lia.
Qed.

Lemma NoDup_at_rank (arr : list Z) :
  (forall q1 q2, 1 <= q1 <= Z.of_nat (length arr) -> 1 <= q2 <= Z.of_nat (length arr) ->
     at_rank arr q1 = at_rank arr q2 -> q1 = q2) -> NoDup arr.
Proof.
  intros H. apply (proj2 (NoDup_nth arr NULL)). intros i j Hi Hj E.
  assert (Z.of_nat i + 1 = Z.of_nat j + 1) by
    (apply H; [lia | lia | rewrite !at_rank_in by lia;
       replace (Z.to_nat (Z.of_nat i + 1 - 1)) with i by lia;
       replace (Z.to_nat (Z.of_nat j + 1 - 1)) with j by lia; exact E]).
  lia.
Qed.

Lemma at_rank_ext (l1 l2 : list Z) :
  length l1 = length l2 ->
  (forall q, 1 <= q <= Z.of_nat (length l1) -> at_rank l1 q = at_rank l2 q) -> l1 = l2.
Proof.
  intros Hl H. apply (nth_ext l1 l2 NULL NULL Hl). intros i Hi.
  specialize (H (Z.of_nat i + 1)). rewrite !at_rank_in in H by lia.
  replace (Z.to_nat (Z.of_nat i + 1 - 1)) with i in H by lia. apply H. lia.
Qed.

Lemma tabulate_length (f : Z -> Z) (n : nat) : length (tabulate f n) = n.
Proof. unfold tabulate. rewrite length_map, length_seq. reflexivity. Qed.

Lemma at_rank_tabulate (f : Z -> Z) (n : nat) (q : Z) :
  1 <= q <= Z.of_nat n -> at_rank (tabulate f n) q = f q.
Proof.
  intros H. rewrite at_rank_in by (rewrite tabulate_length; lia).
  unfold tabulate.
  rewrite nth_indep with (d' := (fun i => f (Z.of_nat i)) O) by (rewrite length_map, length_seq; lia).
  rewrite (map_nth (fun i => f (Z.of_nat i))), seq_nth by lia. f_equal. lia.
Qed.

Lemma In_tabulate (f : Z -> Z) (n : nat) (x : Z) :
  In x (tabulate f n) <-> exists q, 1 <= q <= Z.of_nat n /\ f q = x.
Proof.
  split.
  - intros H. destruct (In_at_rank _ _ H) as [q [Hq Hx]].
    rewrite tabulate_length in Hq. exists q. split; [exact Hq|].
    rewrite <- Hx. symmetry. apply at_rank_tabulate, Hq.
  - intros [q [Hq Hx]]. rewrite <- Hx, <- (at_rank_tabulate f n q Hq).
    apply at_rank_In. rewrite tabulate_length. exact Hq.
Qed.

Lemma at_rank_app_last (arr : list Z) (x q : Z) :
  at_rank (arr ++ [x]) q =
  if q =? Z.of_nat (length arr) + 1 then x else at_rank arr q.
Proof.
  destruct (Z.eqb_spec q (Z.of_nat (length arr) + 1)) as [E|E].
  - rewrite at_rank_in by (rewrite length_app; simpl; lia).
    rewrite app_nth2 by lia. replace (Z.to_nat (q - 1) - length arr)%nat with O by lia.
    reflexivity.
  - destruct (Z_le_dec 1 q); [destruct (Z_le_dec q (Z.of_nat (length arr)))|].
    + rewrite !at_rank_in by (try rewrite length_app; simpl; lia).
      apply app_nth1. lia.
    + rewrite !at_rank_out by (try rewrite length_app; simpl; lia). reflexivity.
    + rewrite !at_rank_out by lia. reflexivity.
Qed.

Lemma index_of_at_rank (arr : list Z) (q : Z) :
  NoDup arr -> 1 <= q <= Z.of_nat (length arr) ->
  index_of (at_rank arr q) arr = Some (Z.to_nat (q - 1)).
Proof.
  intros Hnd Hq. rewrite at_rank_in by exact Hq.
  assert (Hi : (Z.to_nat (q - 1) < length arr)%nat) by lia.
  generalize dependent (Z.to_nat (q - 1)). clear q Hq.
  induction arr as [|y arr IH]; intros i Hi; simpl in *; [lia|].
  inversion Hnd as [|? ? Hy Hnd']; subst.
  destruct i as [|i]; simpl.
  - rewrite Z.eqb_refl. reflexivity.
  - destruct (Z.eqb_spec (nth i arr NULL) y) as [E|E].
    + exfalso. apply Hy. rewrite <- E. apply nth_In. lia.
    + rewrite IH by (auto; lia). reflexivity.
Qed.

Lemma index_of_notin (arr : list Z) (x : Z) : ~ In x arr -> index_of x arr = None.
Proof.
  induction arr as [|y arr IH]; intros H; simpl; [reflexivity|].
  destruct (Z.eqb_spec x y) as [E|E].
  - exfalso. apply H. left. auto.
  - rewrite IH; [reflexivity|]. intros Hin. apply H. right. exact Hin.
Qed.

(** ** The navigator on a complete tree *)

Lemma div_pow2_bit (r j : Z) :
  0 <= r -> 0 <= j ->
  r / 2 ^ j = 2 * (r / 2 ^ (j + 1)) + (if Z.testbit r j then 1 else 0).
Proof.
  intros Hr Hj.
  assert (Hp : 0 < 2 ^ j) by (apply Z.pow_pos_nonneg; lia).
  rewrite Z.pow_add_r, Z.pow_1_r by lia. rewrite <- Z.div_div by lia.
  pose proof (Z.testbit_spec' r j Hj) as Hb.
  pose proof (Z.div_mod (r / 2 ^ j) 2) as Hm.
  destruct (Z.testbit r j); simpl in Hb; lia.
Qed.

Lemma child_slot_of (arr : list Z) (q : Z) (b : bool) :
  child (slot_of arr q) b = at_rank arr (2 * q + (if b then 1 else 0)).
Proof. destruct b; simpl; f_equal; lia. Qed.

Lemma heap_path_rank (st : state) (arr : list Z) (r : Z) (k : nat) (cur : Z) :
  heap_shape st arr -> 0 <= r ->
  1 <= r / 2 ^ (Z.of_nat k + 1) -> r / 2 <= Z.of_nat (length arr) ->
  cur = at_rank arr (r / 2 ^ (Z.of_nat k + 1)) ->
  heap_path (mem st) cur r k = at_rank arr (r / 2).
Proof.
  intros Hs Hr. revert cur. induction k as [|k IH]; intros cur H1 H2 Hc.
  - simpl. subst cur. reflexivity.
  - cbn [heap_path]. apply IH.
    + set (q := r / 2 ^ (Z.of_nat k + 1)).
      pose proof (div_pow2_bit r (Z.of_nat k + 1) Hr ltac:(lia)) as Hb.
      replace (Z.of_nat (S k) + 1) with (Z.of_nat k + 1 + 1) in H1 by lia.
      destruct (Z.testbit r (Z.of_nat k + 1)); lia.
    + exact H2.
    + set (q := r / 2 ^ (Z.of_nat (S k) + 1)) in *.
      assert (Hq : q <= r / 2).
      { unfold q. rewrite <- (Z.pow_1_r 2) at 2. apply Z.div_le_compat_l; [lia|].
        split; [lia|]. apply Z.pow_le_mono_r; lia. }
      destruct Hs as (_ & _ & _ & _ & _ & Hm).
      rewrite Hc, Hm by lia. rewrite child_slot_of. f_equal.
      pose proof (div_pow2_bit r (Z.of_nat k + 1) Hr ltac:(lia)) as Hb.
      replace (Z.of_nat (S k)) with (Z.of_nat k + 1) by lia.
      unfold q in *. replace (Z.of_nat (S k) + 1) with (Z.of_nat k + 1 + 1) by lia.
      destruct (Z.testbit r (Z.of_nat k + 1)); lia.
Qed.

Lemma heap_parent_rank_shape (st : state) (arr : list Z) (r : Z) :
  heap_shape st arr -> 2 <= r <= Z.of_nat (length arr) + 1 ->
  heap_parent_rank st r =
  (at_rank arr (r / 2),
   if Z.testbit r 0 then RightLink (at_rank arr (r / 2)) else LeftLink (at_rank arr (r / 2))).
Proof.
  intros Hs Hr. unfold heap_parent_rank.
  destruct (Z.leb_spec r 1) as [E|E]; [lia|].
  pose proof (Z.log2_pos r ltac:(lia)) as Hl.
  pose proof (Z.log2_spec r ltac:(lia)) as [Hlo Hhi].
  rewrite Z.pow_succ_r in Hhi by lia.
  assert (Hd : r / 2 ^ (Z.log2 r) = 1).
  { assert (0 < 2 ^ Z.log2 r) by (apply Z.pow_pos_nonneg; lia).
    apply Z.le_antisymm.
    - apply Z.lt_succ_r. apply Z.div_lt_upper_bound; lia.
    - apply Z.div_le_lower_bound; lia. }
  rewrite (heap_path_rank st arr r (Z.to_nat (Z.log2 r - 1)) (node (root st)) Hs ltac:(lia));
    replace (Z.of_nat (Z.to_nat (Z.log2 r - 1)) + 1) with (Z.log2 r) by lia.
  - reflexivity.
  - rewrite Hd. lia.
  - clear Hd Hlo Hhi. lia_div.
  - rewrite Hd. apply Hs.
Qed.

Lemma heap_find_shape (st : state) (arr : list Z) (q : Z) :
  heap_shape st arr -> 1 <= q <= Z.of_nat (length arr) -> heap_find st q = at_rank arr q.
Proof.
  intros Hs Hq. pose proof Hs as (Hc & _ & Hroot & _ & Hnn & Hm).
  unfold heap_find. rewrite Hc, Hroot.
  destruct (Z.leb_spec q 0); [lia|]. destruct (Z.ltb_spec (Z.of_nat (length arr)) q); [lia|].
  destruct (Z.eqb_spec (at_rank arr 1) NULL) as [E|E].
  { exfalso. revert E. apply at_rank_nonnull; [exact Hnn | lia]. }
  simpl. destruct (Z.eq_dec q 1) as [->|Hq1].
  - unfold heap_parent_rank. simpl. exact Hroot.
  - rewrite (heap_parent_rank_shape st arr q Hs ltac:(lia)).
    pose proof (div_pow2_bit q 0 ltac:(lia) ltac:(lia)) as Hb.
    rewrite Z.pow_0_r, Z.div_1_r in Hb. change (2 ^ (0 + 1)) with 2 in Hb.
    destruct (Z.testbit q 0); cbn [read_link snd];
      (rewrite Hm by (split; [apply Z.div_le_lower_bound | apply Z.div_le_upper_bound]; lia));
      unfold slot_of; cbn [left right]; f_equal; lia.
Qed.

Lemma heap_decode_shape (st : state) (arr : list Z) :
  heap_shape st arr -> heap_decode st = arr.
Proof.
  intros Hs. pose proof Hs as (Hc & _). unfold heap_decode.
  apply at_rank_ext.
  - rewrite tabulate_length, Hc. lia.
  - intros q Hq. rewrite tabulate_length in Hq.
    rewrite at_rank_tabulate by exact Hq.
    apply heap_find_shape; [exact Hs | lia].
Qed.

Lemma heap_rank_walk_shape (st : state) (arr : list Z) (fuel : nat) (q : Z) :
  heap_shape st arr -> 1 <= q <= Z.of_nat (length arr) -> q - 1 <= Z.of_nat fuel ->
  heap_rank_walk (mem st) (at_rank arr q) fuel = q.
Proof.
  intros Hs. pose proof Hs as (_ & _ & _ & Hnd & Hnn & Hm).
  revert q. induction fuel as [|f IH]; intros q Hq Hf; cbn [heap_rank_walk].
  - lia.
  - rewrite Hm by exact Hq. unfold slot_of. cbn [parent].
    destruct (Z.eq_dec q 1) as [->|Hq1].
    + reflexivity.
    + assert (Hp : 1 <= q / 2 <= Z.of_nat (length arr))
        by (split; [apply Z.div_le_lower_bound | apply Z.div_le_upper_bound]; lia).
      destruct (Z.eqb_spec (at_rank arr (q / 2)) NULL) as [E|E].
      { exfalso. revert E. apply at_rank_nonnull; assumption. }
      rewrite IH by (try exact Hp; assert (q / 2 <= q - 1) by (apply Z.div_le_upper_bound; lia); lia).
      rewrite Hm by exact Hp. unfold slot_of. cbn [left].
      destruct (Z.eqb_spec (at_rank arr (2 * (q / 2))) (at_rank arr q)) as [E2|E2].
      * assert (H2q : 1 <= 2 * (q / 2) <= Z.of_nat (length arr)) by lia_div.
        pose proof (at_rank_inj arr _ _ Hnd H2q Hq E2). lia.
      * assert (2 * (q / 2) <> q) by (intros E3; apply E2; rewrite E3; reflexivity).
        pose proof (Z.mod_pos_bound q 2). pose proof (Z.div_mod q 2). lia.
Qed.

Lemma heap_rank_shape (st : state) (arr : list Z) (q : Z) :
  heap_shape st arr -> 1 <= q <= Z.of_nat (length arr) ->
  heap_rank st (at_rank arr q) = q.
Proof.
  intros Hs Hq. unfold heap_rank. apply (heap_rank_walk_shape st arr); [exact Hs | exact Hq |].
  destruct Hs as (Hc & _). rewrite Hc. lia.
Qed.

(** ** Relinking and exchanging positions *)

Ltac swap_cases :=
  repeat (match goal with
          | |- context [?a =? ?b] => is_var a; destruct (Z.eqb_spec a b)
          end; simpl); try lia.

Lemma relink_mem (st : state) (arr : list Z) (q : Z) :
  NoDup arr -> 1 <= q <= Z.of_nat (length arr) ->
  mem (relink st arr) (at_rank arr q) = slot_of arr q.
Proof.
  intros Hnd Hq. unfold relink. cbn [mem].
  rewrite index_of_at_rank by assumption. f_equal. lia.
Qed.

Lemma relink_shape (st : state) (arr : list Z) (c : Z) :
  NoDup arr -> ~ In NULL arr -> c = Z.of_nat (length arr) -> c < UINT_MOD ->
  heap_shape (set_count (relink st arr) c) arr.
Proof.
  intros Hnd Hnn Hc Hb. unfold heap_shape. cbn [set_count relink mem root node count].
  repeat split; try assumption; try lia.
  intros q Hq. apply (relink_mem st arr q Hnd Hq).
Qed.

(** Rearranging the ranks of [arr] by a bijection [sigma] of [1..length arr]. *)
Lemma tabulate_perm (arr : list Z) (sigma : Z -> Z) :
  NoDup arr -> ~ In NULL arr ->
  (forall q, 1 <= q <= Z.of_nat (length arr) -> 1 <= sigma q <= Z.of_nat (length arr)) ->
  (forall q1 q2, 1 <= q1 <= Z.of_nat (length arr) -> 1 <= q2 <= Z.of_nat (length arr) ->
     sigma q1 = sigma q2 -> q1 = q2) ->
  (forall q, 1 <= q <= Z.of_nat (length arr) ->
     exists q', 1 <= q' <= Z.of_nat (length arr) /\ sigma q' = q) ->
  let arr' := tabulate (fun q => at_rank arr (sigma q)) (length arr) in
  NoDup arr' /\ ~ In NULL arr' /\ length arr' = length arr /\ Permutation arr arr'.
Proof.
  intros Hnd Hnn Hr Hinj Hsurj arr'.
  assert (Hl : length arr' = length arr) by apply tabulate_length.
  assert (Hnd' : NoDup arr').
  { apply NoDup_at_rank. rewrite Hl. intros q1 q2 H1 H2 E. unfold arr' in E.
    rewrite !at_rank_tabulate in E by assumption.
    apply Hinj; try assumption. apply (at_rank_inj arr); auto. }
  assert (Hin : forall x, In x arr' <-> In x arr).
  { intros x. unfold arr'. rewrite In_tabulate. split.
    - intros [q [Hq <-]]. apply at_rank_In, Hr, Hq.
    - intros Hx. destruct (In_at_rank _ _ Hx) as [q [Hq <-]].
      destruct (Hsurj q Hq) as [q' [Hq' <-]]. exists q'. split; auto. }
  repeat split; try assumption.
  - intros Hx. apply Hnn, Hin, Hx.
  - apply NoDup_Permutation; auto. intros x. symmetry. apply Hin.
Qed.

Lemma heap_swap_shape (st : state) (arr : list Z) (a b : Z) :
  heap_shape st arr -> In a arr -> In b arr ->
  exists arr', heap_shape (heap_swap st a b) arr' /\ Permutation arr arr'.
Proof.
  intros Hs Ha Hb. pose proof Hs as (Hc & Hbd & _ & Hnd & Hnn & _).
  destruct (In_at_rank _ _ Ha) as [i [Hi <-]].
  destruct (In_at_rank _ _ Hb) as [j [Hj <-]].
  unfold heap_swap. rewrite (heap_decode_shape st arr Hs).
  rewrite (heap_rank_shape st arr i Hs Hi), (heap_rank_shape st arr j Hs Hj).
  set (sigma := fun q => if q =? i then j else if q =? j then i else q).
  destruct (tabulate_perm arr sigma Hnd Hnn) as (Hnd' & Hnn' & Hl' & Hp).
  - intros q Hq. unfold sigma.
    destruct (Z.eqb_spec q i); [lia|]. destruct (Z.eqb_spec q j); lia.
  - intros q1 q2 H1 H2. unfold sigma.
    destruct (Z.eqb_spec q1 i), (Z.eqb_spec q1 j), (Z.eqb_spec q2 i), (Z.eqb_spec q2 j);
      lia.
  - intros q Hq. exists (sigma q). split.
    + unfold sigma. destruct (Z.eqb_spec q i); [lia|]. destruct (Z.eqb_spec q j); lia.
    + unfold sigma. swap_cases.
  - set (arr' := tabulate (fun q => at_rank arr (sigma q)) (length arr)) in *.
    assert (E : tabulate (fun q => if q =? i then at_rank arr j
                                   else if q =? j then at_rank arr i else at_rank arr q)
                         (length arr) = arr').
    { unfold arr', tabulate. apply map_ext. intros k. unfold sigma.
      destruct (Z.of_nat k =? i); [reflexivity|]. destruct (Z.of_nat k =? j); reflexivity. }
    rewrite E. exists arr'. split; [|exact Hp].
    change (relink st arr') with (set_count (relink st arr') (count (root st))).
    apply relink_shape; auto; rewrite Hc; try rewrite Hl'; lia.
Qed.

(** ** Fixup and Erase keep the shape and permute the nodes *)

Lemma heap_fixup_loop_shape (cmp : heap_cmp_t) (fuel : nat) (st : state) (arr : list Z) (n : Z) :
  heap_shape st arr -> In n arr ->
  exists arr', heap_shape (heap_fixup_loop cmp fuel st n) arr' /\ Permutation arr arr'.
Proof.
  revert st arr. induction fuel as [|f IH]; intros st arr Hs Hn; cbn [heap_fixup_loop].
  - exists arr. split; [exact Hs | reflexivity].
  - pose proof Hs as (_ & _ & _ & _ & Hnn & Hm).
    destruct (In_at_rank _ _ Hn) as [q [Hq Eq]].
    assert (Hp : parent (mem st n) = at_rank arr (q / 2))
      by (rewrite <- Eq, (Hm q Hq); reflexivity).
    rewrite Hp.
    destruct (Z.eqb_spec (at_rank arr (q / 2)) NULL) as [E|E].
    { exists arr. split; [exact Hs | reflexivity]. }
    destruct (cmp n (at_rank arr (q / 2)) <? 0).
    + destruct (heap_swap_shape st arr (at_rank arr (q / 2)) n Hs
                  (at_rank_In _ _ (at_rank_range _ _ E)) Hn) as [arr1 [Hs1 Hp1]].
      destruct (IH _ _ Hs1 (Permutation_in _ Hp1 Hn)) as [arr2 [Hs2 Hp2]].
      exists arr2. split; [exact Hs2 | exact (perm_trans Hp1 Hp2)].
    + exists arr. split; [exact Hs | reflexivity].
Qed.

Lemma heap_erase_loop_shape (cmp : heap_cmp_t) (fuel : nat) (st : state) (arr : list Z) (n : Z) :
  heap_shape st arr -> In n arr ->
  exists arr', heap_shape (heap_erase_loop cmp fuel st n) arr' /\ Permutation arr arr'.
Proof.
  revert st arr. induction fuel as [|f IH]; intros st arr Hs Hn; cbn [heap_erase_loop].
  - exists arr. split; [exact Hs | reflexivity].
  - pose proof Hs as (_ & _ & _ & _ & Hnn & Hm).
    destruct (In_at_rank _ _ Hn) as [q [Hq Eq]].
    assert (Hl : left (mem st n) = at_rank arr (2 * q))
      by (rewrite <- Eq, (Hm q Hq); reflexivity).
    assert (Hr : right (mem st n) = at_rank arr (2 * q + 1))
      by (rewrite <- Eq, (Hm q Hq); reflexivity).
    rewrite Hl, Hr.
    destruct (Z.eqb_spec (at_rank arr (2 * q)) NULL) as [El|El].
    { exists arr. split; [exact Hs | reflexivity]. }
    set (succ := if negb (at_rank arr (2 * q + 1) =? NULL) &&
                    (cmp (at_rank arr (2 * q + 1)) (at_rank arr (2 * q)) <? 0)
                 then at_rank arr (2 * q + 1) else at_rank arr (2 * q)).
    assert (Hsucc : In succ arr).
    { unfold succ. destruct (Z.eqb_spec (at_rank arr (2 * q + 1)) NULL) as [Er|Er]; simpl.
      - apply at_rank_In, at_rank_range, El.
      - destruct (_ <? 0); apply at_rank_In, at_rank_range; assumption. }
    destruct (cmp succ n <? 0).
    + destruct (heap_swap_shape st arr n succ Hs Hn Hsucc) as [arr1 [Hs1 Hp1]].
      destruct (IH _ _ Hs1 (Permutation_in _ Hp1 Hn)) as [arr2 [Hs2 Hp2]].
      exists arr2. split; [exact Hs2 | exact (perm_trans Hp1 Hp2)].
    + exists arr. split; [exact Hs | reflexivity].
Qed.

(** ** Memory effects of the link writes *)

Lemma heap_link_mem (st : state) (par : Z) (l : link) (n x : Z) :
  mem (heap_link None st par l n) x =
  if x =? n then mk_node par NULL NULL else mem (write_link st l n) x.
Proof.
  unfold heap_link, link_check. cbn [negb].
  unfold set_count, set_left, set_right, set_parent, upd. cbn [mem root].
  rewrite !Z.eqb_refl. cbn [parent left right].
  destruct (x =? n); reflexivity.
Qed.

Lemma heap_link_root (st : state) (par : Z) (l : link) (n : Z) :
  root (heap_link None st par l n) =
  mk_root (node (root (write_link st l n))) ((count (root st) + 1) mod UINT_MOD).
Proof. destruct l; reflexivity. Qed.

Lemma write_link_mem_other (st : state) (l : link) (v x : Z) :
  x <> link_owner l -> mem (write_link st l v) x = mem st x.
Proof.
  intros H. destruct l; cbn [write_link set_root_node set_left set_right mem]; auto;
    unfold upd; destruct (Z.eqb_spec x p); cbn in H; congruence.
Qed.

Lemma write_link_root_other (st : state) (l : link) (v : Z) :
  l <> RootLink -> root (write_link st l v) = root st.
Proof. intros H. destruct l; [congruence | reflexivity | reflexivity]. Qed.

Lemma slot_of_app_last (arr : list Z) (x q : Z) :
  q <= Z.of_nat (length arr) ->
  2 * q <> Z.of_nat (length arr) + 1 -> 2 * q + 1 <> Z.of_nat (length arr) + 1 ->
  slot_of (arr ++ [x]) q = slot_of arr q.
Proof.
  intros H1 H2 H3. unfold slot_of. rewrite !at_rank_app_last.
  destruct (Z.eqb_spec (q / 2) (Z.of_nat (length arr) + 1)); [lia_div|].
  destruct (Z.eqb_spec (2 * q) (Z.of_nat (length arr) + 1)); [lia|].
  destruct (Z.eqb_spec (2 * q + 1) (Z.of_nat (length arr) + 1)); [lia|].
  reflexivity.
Qed.

Lemma NoDup_app_last (arr : list Z) (n : Z) :
  NoDup arr -> ~ In n arr -> NoDup (arr ++ [n]).
Proof.
  intros H1 H2. apply (Permutation_NoDup (Permutation_cons_append arr n)).
  constructor; assumption.
Qed.

(** Linking at the slot [heap_parent] returns puts the node at rank
    [count + 1]. *)
Lemma heap_link_shape (st : state) (arr : list Z) (n : Z) :
  heap_shape st arr -> ~ In n arr -> n <> NULL ->
  Z.of_nat (length arr) + 1 < UINT_MOD ->
  heap_shape (heap_link None st (fst (heap_parent st n)) (snd (heap_parent st n)) n)
             (arr ++ [n]).
Proof.
  intros Hs Hn Hnn0 Hb. pose proof Hs as (Hc & Hbd & Hroot & Hnd & Hnn & Hm).
  assert (Hr : heap_parent st n = heap_parent_rank st (Z.of_nat (length arr) + 1)).
  { unfold heap_parent. rewrite Hc. f_equal. apply Z.mod_small. lia. }
  rewrite Hr.
  assert (Hlen' : Z.of_nat (length (arr ++ [n])) = Z.of_nat (length arr) + 1)
    by (rewrite length_app; simpl; lia).
  unfold heap_shape. rewrite Hlen', heap_link_root. cbn [count node].
  rewrite Hc, Z.mod_small by lia.
  destruct (Z.eq_dec (Z.of_nat (length arr)) 0) as [H0|H0].
  - (* empty root: the node becomes the root *)
    destruct arr as [|y arr]; [|simpl in H0; lia].
    cbn [length Z.of_nat] in *.
    change (heap_parent_rank st (0 + 1)) with (NULL, RootLink). cbn [fst snd].
    refine (conj _ (conj _ (conj _ (conj _ (conj _ _))))).
    + reflexivity.
    + lia.
    + reflexivity.
    + constructor; [intros [] | constructor].
    + intros [E|[]]. exact (Hnn0 E).
    + intros q Hq. replace q with 1 by lia. change (at_rank [n] 1) with n.
      rewrite heap_link_mem, Z.eqb_refl. reflexivity.
  - set (r := Z.of_nat (length arr) + 1) in *.
    rewrite (heap_parent_rank_shape st arr r Hs ltac:(lia)).
    set (p := at_rank arr (r / 2)).
    assert (Hpr : 1 <= r / 2 <= Z.of_nat (length arr)) by lia_div.
    assert (Hpn : p <> n) by (intros E; apply Hn; rewrite <- E; apply at_rank_In, Hpr).
    assert (Hlink : snd (p, if Z.testbit r 0 then RightLink p else LeftLink p) <> RootLink)
      by (cbn [snd]; destruct (Z.testbit r 0); discriminate).
    repeat split.
    + lia.
    + rewrite write_link_root_other by exact Hlink. rewrite Hroot, at_rank_app_last. fold r.
      destruct (Z.eqb_spec 1 r); [lia | reflexivity].
    + apply NoDup_app_last; assumption.
    + rewrite in_app_iff. simpl. intros [E|[E|E]]; [exact (Hnn E) | congruence | exact E].
    + intros q Hq. rewrite heap_link_mem, at_rank_app_last. fold r.
      destruct (Z.eqb_spec q r) as [Eq|Eq].
      * (* the new leaf *)
        subst q. rewrite Z.eqb_refl. unfold slot_of. rewrite !at_rank_app_last. fold r.
        destruct (Z.eqb_spec (r / 2) r); [lia_div|].
        destruct (Z.eqb_spec (2 * r) r); [lia|].
        destruct (Z.eqb_spec (2 * r + 1) r); [lia|].
        rewrite (at_rank_out arr (2 * r)), (at_rank_out arr (2 * r + 1)) by lia.
        reflexivity.
      * assert (Hq' : 1 <= q <= Z.of_nat (length arr)) by lia.
        assert (Hx : at_rank arr q <> n)
          by (intros E; apply Hn; rewrite <- E; apply at_rank_In, Hq').
        destruct (Z.eqb_spec (at_rank arr q) n) as [E|_]; [contradiction|].
        destruct (Z.eq_dec q (r / 2)) as [Eqp|Eqp].
        -- (* the parent: one child slot now holds the node *)
           rewrite Eqp. fold p. pose proof (Hm _ Hpr) as Hmp. fold p in Hmp.
           unfold slot_of in *. rewrite !at_rank_app_last. fold r.
           destruct (Z.eqb_spec (r / 2 / 2) r); [lia_div|].
           pose proof (div_pow2_bit r 0 ltac:(lia) ltac:(lia)) as Hbit.
           rewrite Z.pow_0_r, Z.div_1_r in Hbit. change (2 ^ (0 + 1)) with 2 in Hbit.
           destruct (Z.testbit r 0); cbn [snd write_link set_left set_right mem];
             unfold upd; rewrite Z.eqb_refl, Hmp; cbn [parent left right].
           ++ destruct (Z.eqb_spec (2 * (r / 2)) r); [lia|].
              destruct (Z.eqb_spec (2 * (r / 2) + 1) r); [reflexivity | lia].
           ++ destruct (Z.eqb_spec (2 * (r / 2)) r); [|lia].
              destruct (Z.eqb_spec (2 * (r / 2) + 1) r); [lia | reflexivity].
        -- rewrite write_link_mem_other
             by (cbn [snd]; destruct (Z.testbit r 0); cbn [link_owner]; intros E;
                 apply Eqp; exact (at_rank_inj arr _ _ Hnd Hq' Hpr E)).
           rewrite (Hm q Hq'). symmetry. apply slot_of_app_last; [lia | |].
           ++ intros E. apply Eqp. lia_div.
           ++ intros E. apply Eqp. lia_div.
Qed.

(** ** Removal keeps the shape and takes exactly the removed node out *)

(** Selecting ranks of [arr] by an injection [sigma] of [1..m] into its ranks. *)
Lemma tabulate_sub (arr : list Z) (m : nat) (sigma : Z -> Z) :
  NoDup arr -> ~ In NULL arr ->
  (forall q, 1 <= q <= Z.of_nat m -> 1 <= sigma q <= Z.of_nat (length arr)) ->
  (forall q1 q2, 1 <= q1 <= Z.of_nat m -> 1 <= q2 <= Z.of_nat m ->
     sigma q1 = sigma q2 -> q1 = q2) ->
  let arr' := tabulate (fun q => at_rank arr (sigma q)) m in
  NoDup arr' /\ ~ In NULL arr' /\ length arr' = m.
Proof.
  intros Hnd Hnn Hr Hinj arr'.
  assert (Hl : length arr' = m) by apply tabulate_length.
  split; [|split; [|exact Hl]].
  - apply NoDup_at_rank. rewrite Hl. intros q1 q2 H1 H2 E. unfold arr' in E.
    rewrite !at_rank_tabulate in E by assumption.
    apply Hinj; try assumption. apply (at_rank_inj arr); auto.
  - unfold arr'. rewrite In_tabulate. intros [q [Hq E]].
    exact (at_rank_nonnull arr (sigma q) Hnn (Hr q Hq) E).
Qed.

(** Clearing the slot of the last node. *)
Lemma heap_unlink_last_shape (st : state) (arr : list Z) (n : Z) :
  heap_shape st (arr ++ [n]) ->
  heap_shape (set_count (write_link st (snd (heap_parent_rank st (Z.of_nat (length arr) + 1))) NULL)
                        (Z.of_nat (length arr))) arr.
Proof.
  intros Hs. pose proof Hs as (Hc & Hbd & Hroot & Hnd' & Hnn' & Hm).
  rewrite length_app in Hbd, Hm. cbn [length] in Hbd, Hm.
  assert (Hnd : NoDup arr) by exact (NoDup_app_remove_r _ _ Hnd').
  assert (Hnn : ~ In NULL arr) by (intros H; apply Hnn', in_or_app; left; exact H).
  assert (Hat : forall q, q <= Z.of_nat (length arr) -> at_rank (arr ++ [n]) q = at_rank arr q).
  { intros q Hq. rewrite at_rank_app_last. destruct (Z.eqb_spec q (Z.of_nat (length arr) + 1));
      [lia | reflexivity]. }
  destruct (Z.eq_dec (Z.of_nat (length arr)) 0) as [H0|H0].
  - destruct arr as [|y arr]; [|simpl in H0; lia].
    cbn [length Z.of_nat].
    change (heap_parent_rank st (0 + 1)) with (NULL, RootLink). cbn [snd write_link].
    refine (conj _ (conj _ (conj _ (conj _ (conj _ _))))); try reflexivity.
    + constructor.
    + intros [].
    + cbn [length Z.of_nat]. intros q Hq. lia.
  - set (r := Z.of_nat (length arr) + 1) in *.
    assert (Hpr : 1 <= r / 2 <= Z.of_nat (length arr)) by lia_div.
    rewrite (heap_parent_rank_shape st (arr ++ [n]) r Hs)
      by (rewrite length_app; cbn [length]; lia).
    rewrite (Hat (r / 2)) by lia.
    set (p := at_rank arr (r / 2)).
    assert (Hlink : snd (p, if Z.testbit r 0 then RightLink p else LeftLink p) <> RootLink)
      by (cbn [snd]; destruct (Z.testbit r 0); discriminate).
    unfold heap_shape. cbn [set_count root mem count node].
    refine (conj eq_refl (conj _ (conj _ (conj Hnd (conj Hnn _))))).
    + lia.
    + rewrite write_link_root_other by exact Hlink. rewrite Hroot. apply Hat. lia.
    + intros q Hq.
      destruct (Z.eq_dec q (r / 2)) as [Eqp|Eqp].
      * rewrite Eqp. fold p.
        pose proof (Hm (r / 2) ltac:(lia)) as Hmp. rewrite (Hat (r / 2)) in Hmp by lia.
        fold p in Hmp. unfold slot_of in *. rewrite !at_rank_app_last in Hmp. fold r in Hmp.
        destruct (Z.eqb_spec (r / 2 / 2) r); [lia_div|].
        pose proof (div_pow2_bit r 0 ltac:(lia) ltac:(lia)) as Hbit.
        rewrite Z.pow_0_r, Z.div_1_r in Hbit. change (2 ^ (0 + 1)) with 2 in Hbit.
        destruct (Z.testbit r 0); cbn [snd write_link set_left set_right mem];
          unfold upd; rewrite Z.eqb_refl, Hmp; cbn [parent left right].
        -- destruct (Z.eqb_spec (2 * (r / 2)) r); [lia|].
           rewrite (at_rank_out arr (2 * (r / 2) + 1)) by lia. reflexivity.
        -- destruct (Z.eqb_spec (2 * (r / 2)) r); [|lia].
           destruct (Z.eqb_spec (2 * (r / 2) + 1) r); [lia|].
           rewrite (at_rank_out arr (2 * (r / 2))), (at_rank_out arr (2 * (r / 2) + 1)) by lia.
           reflexivity.
      * rewrite write_link_mem_other
          by (cbn [snd]; destruct (Z.testbit r 0); cbn [link_owner]; intros E;
              apply Eqp; exact (at_rank_inj arr _ _ Hnd Hq Hpr E)).
        rewrite <- (Hat q) by lia. rewrite (Hm q) by lia.
        apply slot_of_app_last; [lia | |].
        -- intros E. apply Eqp. lia_div.
        -- intros E. apply Eqp. lia_div.
Qed.

Lemma heap_remove_shape (st : state) (arr : list Z) (n : Z) :
  heap_shape st arr -> In n arr ->
  exists arr', heap_shape (fst (heap_remove st n)) arr' /\ Permutation arr (n :: arr') /\
    (snd (heap_remove st n) = NULL \/ In (snd (heap_remove st n)) arr').
Proof.
  intros Hs Hn. pose proof Hs as (Hc & Hbd & Hroot & Hnd & Hnn & Hm).
  assert (Hne : arr <> []) by (intros E; subst arr; contradiction).
  destruct (exists_last Hne) as [arr0 [x Harr]].
  assert (Hlen : Z.of_nat (length arr) = Z.of_nat (length arr0) + 1)
    by (rewrite Harr, length_app; cbn [length]; lia).
  assert (Hxl : at_rank arr (Z.of_nat (length arr)) = x).
  { rewrite Hlen. rewrite Harr at 1. rewrite at_rank_app_last, Z.eqb_refl. reflexivity. }
  assert (Hlast : heap_find st (Z.of_nat (length arr)) = x).
  { rewrite (heap_find_shape st arr) by (auto; lia). exact Hxl. }
  unfold heap_remove. rewrite Hc, Hlast.
  destruct (Z.eqb_spec x n) as [Ex|Ex].
  - (* the last node itself: clear its slot *)
    subst n. exists arr0. cbn [fst snd]. split; [|split; [|left; reflexivity]].
    + rewrite Hlen. replace ((Z.of_nat (length arr0) + 1 - 1) mod UINT_MOD)
        with (Z.of_nat (length arr0)) by (rewrite Z.mod_small; lia).
      apply (heap_unlink_last_shape st arr0 x). rewrite <- Harr. exact Hs.
    + rewrite Harr. symmetry. apply Permutation_cons_append.
  - (* promote the last node into the removed node's rank *)
    destruct (In_at_rank _ _ Hn) as [k [Hk Ek]].
    assert (Hkl : k <> Z.of_nat (length arr)).
    { intros E. apply Ex. rewrite <- Hlast, <- Ek, E.
      apply (heap_find_shape st arr); auto; lia. }
    rewrite (heap_decode_shape st arr Hs), <- Ek, (heap_rank_shape st arr k Hs Hk).
    replace (Z.to_nat (Z.of_nat (length arr)) - 1)%nat with (length arr0) by lia.
    set (sigma := fun q => if q =? k then Z.of_nat (length arr) else q).
    assert (E : tabulate (fun q => if q =? k then x else at_rank arr q) (length arr0) =
                tabulate (fun q => at_rank arr (sigma q)) (length arr0)).
    { unfold tabulate. apply map_ext. intros i. unfold sigma.
      destruct (Z.of_nat i =? k); [symmetry; exact Hxl | reflexivity]. }
    rewrite E. set (arr' := tabulate (fun q => at_rank arr (sigma q)) (length arr0)).
    assert (Hr : forall q, 1 <= q <= Z.of_nat (length arr0) ->
                   1 <= sigma q <= Z.of_nat (length arr)).
    { intros q Hq. unfold sigma. destruct (Z.eqb_spec q k); lia. }
    assert (Hinj : forall q1 q2, 1 <= q1 <= Z.of_nat (length arr0) ->
                     1 <= q2 <= Z.of_nat (length arr0) -> sigma q1 = sigma q2 -> q1 = q2).
    { intros q1 q2 H1 H2. unfold sigma.
      destruct (Z.eqb_spec q1 k), (Z.eqb_spec q2 k); lia. }
    destruct (tabulate_sub arr (length arr0) sigma Hnd Hnn Hr Hinj) as (Hnd' & Hnn' & Hl').
    fold arr' in Hnd', Hnn', Hl'.
    assert (Hnk : ~ In (at_rank arr k) arr').
    { unfold arr'. rewrite In_tabulate. intros [q [Hq Eq]].
      pose proof (at_rank_inj arr _ _ Hnd (Hr q Hq) Hk Eq) as Eq'.
      revert Eq'. unfold sigma. destruct (Z.eqb_spec q k); lia. }
    exists arr'. cbn [fst snd]. split; [|split].
    + apply relink_shape; [exact Hnd' | exact Hnn' | |].
      * rewrite Hl', Z.mod_small; lia.
      * apply Z.mod_pos_bound. unfold UINT_MOD. lia.
    + apply NoDup_Permutation; [exact Hnd | constructor; assumption |].
      intros y. split.
      * intros Hy. destruct (In_at_rank _ _ Hy) as [q [Hq <-]].
        destruct (Z.eq_dec q k) as [->|Hqk]; [left; reflexivity|]. right.
        unfold arr'. rewrite In_tabulate.
        destruct (Z.eq_dec q (Z.of_nat (length arr))) as [->|Hql].
        -- exists k. split; [lia|]. unfold sigma. rewrite Z.eqb_refl. reflexivity.
        -- exists q. split; [lia|]. unfold sigma.
           destruct (Z.eqb_spec q k); [lia | reflexivity].
      * intros [<-|Hy]; [apply at_rank_In, Hk|].
        unfold arr' in Hy. rewrite In_tabulate in Hy. destruct Hy as [q [Hq <-]].
        apply at_rank_In, Hr, Hq.
    + right. unfold arr'. rewrite In_tabulate. exists k. split; [lia|].
      unfold sigma. rewrite Z.eqb_refl. exact Hxl.
Qed.

(** Writing the removed node's own fields does not touch the tree. *)
Lemma set_fields_shape (st : state) (arr : list Z) (n v : Z) :
  heap_shape st arr -> ~ In n arr ->
  heap_shape (set_left st n v) arr /\ heap_shape (set_right st n v) arr /\
  heap_shape (set_parent st n v) arr.
Proof.
  intros (Hc & Hbd & Hroot & Hnd & Hnn & Hm) Hn.
  assert (Hx : forall q, 1 <= q <= Z.of_nat (length arr) -> (at_rank arr q =? n) = false).
  { intros q Hq. apply Z.eqb_neq. intros E. apply Hn. rewrite <- E. apply at_rank_In, Hq. }
  repeat split; auto; intros q Hq; cbn [set_left set_right set_parent mem];
    unfold upd; rewrite Hx by exact Hq; apply Hm, Hq.
Qed.

(** ** Insert and delete *)

Lemma heap_insert_shape (cmp : heap_cmp_t) (st : state) (arr : list Z) (n : Z) :
  heap_shape st arr -> ~ In n arr -> n <> NULL -> Z.of_nat (length arr) + 1 < UINT_MOD ->
  exists arr', heap_shape (heap_insert None st n cmp) arr' /\ Permutation (n :: arr) arr'.
Proof.
  intros Hs Hn Hnn Hb. unfold heap_insert.
  pose proof (heap_link_shape st arr n Hs Hn Hnn Hb) as Hl.
  destruct (heap_parent st n) as [par l]. cbn [fst snd] in Hl.
  unfold heap_insert_node, heap_fixup.
  assert (Hin : In n (arr ++ [n])) by (apply in_or_app; right; left; reflexivity).
  destruct (heap_fixup_loop_shape cmp (Z.to_nat (count (root (heap_link None st par l n))))
              _ _ n Hl Hin) as [arr' [Hs' Hp]].
  exists arr'. split; [exact Hs'|].
  eapply perm_trans; [apply Permutation_cons_append | exact Hp].
Qed.

Lemma heap_delete_shape (cmp : heap_cmp_t) (st : state) (arr : list Z) (n : Z) :
  heap_shape st arr -> In n arr ->
  exists arr', heap_shape (heap_delete None st n cmp) arr' /\ Permutation arr (n :: arr').
Proof.
  intros Hs Hn. unfold heap_delete, delete_check. cbn [negb].
  destruct (heap_remove_shape st arr n Hs Hn) as [arr1 [Hs1 [Hp1 Hreb]]].
  destruct (heap_remove st n) as [st1 reb]. cbn [fst snd] in Hs1, Hreb.
  assert (Hst2 : exists arr2, heap_shape (if negb (reb =? NULL) then heap_erase st1 reb cmp else st1) arr2
                              /\ Permutation arr1 arr2).
  { destruct (Z.eqb_spec reb NULL) as [E|E]; cbn [negb].
    - exists arr1. split; [exact Hs1 | reflexivity].
    - destruct Hreb as [Hreb|Hreb]; [contradiction|].
      apply heap_erase_loop_shape; assumption. }
  destruct Hst2 as [arr2 [Hs2 Hp2]].
  assert (Hn2 : ~ In n arr2).
  { intros H. pose proof (Permutation_NoDup Hp1 (proj1 (proj2 (proj2 (proj2 Hs))))) as Hnd.
    inversion Hnd as [|? ? Hn1 _]; subst. apply Hn1. apply (Permutation_in _ (Permutation_sym Hp2) H). }
  exists arr2. split.
  - set (st2 := if negb (reb =? NULL) then heap_erase st1 reb cmp else st1) in *.
    pose proof (proj1 (set_fields_shape st2 arr2 n POISON_HPNODE1 Hs2 Hn2)) as Hs3.
    pose proof (proj1 (proj2 (set_fields_shape _ arr2 n POISON_HPNODE2 Hs3 Hn2))) as Hs4.
    exact (proj2 (proj2 (set_fields_shape _ arr2 n POISON_HPNODE3 Hs4 Hn2))).
  - eapply perm_trans; [exact Hp1|]. apply perm_skip, Hp2.
Qed.

(** ** Level-order traversal *)

(** Every positive rank resolves to the node of that rank, [NULL] past the end. *)
Lemma heap_find_shape_all (st : state) (arr : list Z) (q : Z) :
  heap_shape st arr -> 1 <= q -> heap_find st q = at_rank arr q.
Proof.
  intros Hs Hq. destruct (Z_le_gt_dec q (Z.of_nat (length arr))) as [Hl|Hl].
  - apply heap_find_shape; auto; lia.
  - pose proof Hs as (Hc & _). rewrite at_rank_out by lia.
    unfold heap_find. rewrite Hc. replace (Z.of_nat (length arr) <? q) with true
      by (symmetry; apply Z.ltb_lt; lia).
    rewrite orb_true_r. reflexivity.
Qed.

Lemma skipn_at_rank (arr : list Z) (j : Z) :
  1 <= j <= Z.of_nat (length arr) ->
  skipn (Z.to_nat (j - 1)) arr = at_rank arr j :: skipn (Z.to_nat j) arr.
Proof.
  intros Hj. rewrite at_rank_in by exact Hj.
  replace (Z.to_nat j) with (S (Z.to_nat (j - 1))) by lia.
  assert (Hi : (Z.to_nat (j - 1) < length arr)%nat) by lia.
  generalize dependent (Z.to_nat (j - 1)). clear Hj.
  induction arr as [|a arr IH]; intros i Hi; [cbn in Hi; lia|].
  destruct i as [|i]; [reflexivity|].
  cbn [skipn nth]. apply IH. cbn [length] in Hi. lia.
Qed.

(** From a cursor at rank [j] holding the node of rank [j], the loop visits
    the ranks [j], [j+1], ..., [count] in order. *)
Lemma heap_for_each_from_shape (st : state) (arr : list Z) (fuel : nat) (j : Z) :
  heap_shape st arr -> 1 <= j -> Z.of_nat (length arr) + 1 - j < Z.of_nat fuel ->
  heap_for_each_from fuel st (at_rank arr j) j = skipn (Z.to_nat (j - 1)) arr.
Proof.
  intros Hs. pose proof Hs as (_ & Hbd & _ & _ & Hnn & _).
  revert j. induction fuel as [|f IH]; intros j Hj Hf.
  { cbn [heap_for_each_from]. symmetry. apply skipn_all2. lia. }
  cbn [heap_for_each_from].
  destruct (Z_le_gt_dec j (Z.of_nat (length arr))) as [Hl|Hl].
  - pose proof (at_rank_nonnull arr j Hnn (conj Hj Hl)) as Hne.
    apply Z.eqb_neq in Hne. rewrite Hne.
    rewrite (skipn_at_rank arr j (conj Hj Hl)). f_equal.
    unfold heap_level_next. rewrite Z.mod_small by (unfold ULONG_MOD, UINT_MOD in *; lia).
    rewrite (heap_find_shape_all st arr (j + 1) Hs) by lia.
    rewrite IH by lia. f_equal. lia.
  - rewrite at_rank_out by lia. cbn [Z.eqb]. rewrite Z.eqb_refl.
    symmetry. apply skipn_all2. lia.
Qed.

(** The cursor after [heap_level_first] and [k] steps sits on rank [k + 1]. *)
Lemma heap_level_iter_shape (st : state) (arr : list Z) (k : nat) :
  heap_shape st arr -> Z.of_nat k + 1 < ULONG_MOD ->
  heap_level_iter st k = (at_rank arr (Z.of_nat k + 1), Z.of_nat k + 1).
Proof.
  intros Hs. pose proof Hs as (_ & _ & Hroot & _).
  induction k as [|k IH]; intros Hk.
  - cbn [heap_level_iter]. unfold heap_level_first. rewrite Hroot. reflexivity.
  - cbn [heap_level_iter]. rewrite IH by lia. cbn [snd]. unfold heap_level_next.
    rewrite Z.mod_small by lia.
    rewrite (heap_find_shape_all st arr _ Hs) by lia. f_equal; f_equal; lia.
Qed.

Lemma heap_for_each_shape (st : state) (arr : list Z) (fuel : nat) :
  heap_shape st arr -> (length arr < fuel)%nat -> heap_for_each fuel st = arr.
Proof.
  intros Hs Hf. pose proof Hs as (_ & _ & Hroot & _).
  unfold heap_for_each, heap_level_first. rewrite Hroot.
  rewrite (heap_for_each_from_shape st arr fuel 1 Hs) by lia. reflexivity.
Qed.

(** ** The decision procedure *)

Lemma nodupb_NoDup (l : list Z) : nodupb l = true -> NoDup l.
Proof.
  induction l as [|x l IH]; cbn [nodupb]; intros H; [constructor|].
  apply andb_true_iff in H as [H1 H2]. constructor; [|exact (IH H2)].
  intros Hin. apply negb_true_iff in H1. rewrite <- not_true_iff_false in H1.
  apply H1, existsb_exists. exists x. split; [exact Hin | apply Z.eqb_refl].
Qed.

Lemma node_eqb_eq (a b : heap_node) : node_eqb a b = true -> a = b.
Proof.
  destruct a, b. unfold node_eqb. cbn [parent left right].
  rewrite !andb_true_iff, !Z.eqb_eq. intros [[-> ->] ->]. reflexivity.
Qed.

Lemma heap_shapeb_spec (st : state) (arr : list Z) :
  heap_shapeb st arr = true -> heap_shape st arr.
Proof.
  unfold heap_shapeb. rewrite !andb_true_iff, !Z.eqb_eq, Z.ltb_lt, negb_true_iff.
  intros [[[[[Hc Hb] Hr] Hnd] Hnn] Hm].
  refine (conj Hc (conj Hb (conj Hr (conj (nodupb_NoDup _ Hnd) (conj _ _))))).
  - intros Hin. rewrite <- not_true_iff_false in Hnn. apply Hnn, existsb_exists.
    exists NULL. split; [exact Hin | apply Z.eqb_refl].
  - intros q Hq. rewrite forallb_forall in Hm. apply node_eqb_eq, Hm.
    apply in_map_iff. exists (Z.to_nat q). split; [lia|]. apply in_seq. lia.
Qed.

(** ** Sequences of inserts and deletes *)

Lemma heap_shape_init (m : Z -> heap_node) : heap_shape (mk_state m HEAP_INIT) [].
Proof.
  refine (conj eq_refl (conj _ (conj eq_refl (conj (NoDup_nil _) (conj (fun H => H) _))))).
  - unfold UINT_MOD. cbn [length Z.of_nat]. lia.
  - intros q Hq. cbn [length Z.of_nat] in Hq. lia.
Qed.

Lemma heap_insert_seq_shape (cmp : heap_cmp_t) (l : list Z) :
  forall st arr, heap_shape st arr -> NoDup (l ++ arr) -> ~ In NULL l ->
  Z.of_nat (length arr + length l) < UINT_MOD ->
  exists arr', heap_shape (heap_insert_seq st l cmp) arr' /\ Permutation (l ++ arr) arr'.
Proof.
  induction l as [|n l IH]; intros st arr Hs Hnd Hnn Hb.
  - exists arr. split; [exact Hs | reflexivity].
  - cbn [length app] in *.
    inversion Hnd as [|? ? Hn Hnd']; subst.
    assert (Hna : ~ In n arr) by (intros H; apply Hn, in_or_app; right; exact H).
    assert (Hn0 : n <> NULL) by (intros E; apply Hnn; left; rewrite E; reflexivity).
    destruct (heap_insert_shape cmp st arr n Hs Hna Hn0) as [arr1 [Hs1 Hp1]]; [lia|].
    assert (Hp : Permutation (l ++ arr1) (n :: l ++ arr)).
    { eapply perm_trans; [apply Permutation_app_head, Permutation_sym, Hp1|].
      apply Permutation_sym, Permutation_middle. }
    destruct (IH (heap_insert None st n cmp) arr1 Hs1) as [arr' [Hs' Hp']].
    + apply (Permutation_NoDup (Permutation_sym Hp)). constructor; assumption.
    + intros H. apply Hnn. right. exact H.
    + apply Permutation_length in Hp1. cbn [length] in Hp1. lia.
    + exists arr'. split; [exact Hs'|].
      eapply perm_trans; [apply Permutation_sym, Hp | exact Hp'].
Qed.

Lemma heap_delete_seq_shape (cmp : heap_cmp_t) (dl : list Z) :
  forall st arr, heap_shape st arr -> Permutation arr dl ->
  heap_shape (heap_delete_seq st dl cmp) [].
Proof.
  induction dl as [|n dl IH]; intros st arr Hs Hp.
  - apply Permutation_sym, Permutation_nil in Hp. subst arr. exact Hs.
  - assert (Hn : In n arr) by (apply (Permutation_in _ (Permutation_sym Hp)); left; reflexivity).
    destruct (heap_delete_shape cmp st arr n Hs Hn) as [arr1 [Hs1 Hp1]].
    apply (IH _ arr1 Hs1).
    apply (Permutation_cons_inv (a := n)).
    eapply perm_trans; [apply Permutation_sym, Hp1 | exact Hp].
Qed.

(** A rank holds [NULL] exactly past the end of the layout. *)
Lemma at_rank_null_iff (arr : list Z) (q : Z) :
  ~ In NULL arr -> 1 <= q -> (at_rank arr q = NULL <-> Z.of_nat (length arr) < q).
Proof.
  intros Hnn Hq. split.
  - intros E. destruct (Z_lt_le_dec (Z.of_nat (length arr)) q) as [H|H]; [exact H|].
    exfalso. exact (at_rank_nonnull arr q Hnn (conj Hq H) E).
  - intros H. apply at_rank_out. lia.
Qed.

End HeapFacts.

(** * The claims *)
Module HeapClaims.
Import Heap HeapFacts HeapScenario.

(** ** Deletion and the order invariant *)

(** C1 (code bug, with [heap_remove] and [heap_erase] modelled from the
    spec): [heap_delete] only calls [heap_erase] (sift-down) on the node that
    [heap_remove] promotes, never [heap_fixup].  Deleting the node of key 11
    (rank 4) from the example heap promotes the last node (key 4) under the
    node of key 10; nothing sifts it up, so it stays below a greater parent
    and the tree is no longer ordered.  Sifting it up with [heap_fixup] would
    have restored the order. *)
Theorem heap_delete_no_fixup :
  heap_ordered heap_test_cmp st_ins = true /\
  heap_decode st_del = [101; 102; 103; 107; 105; 106] /\
  parent (mem st_del 107) = 102 /\
  heap_test_cmp 102 107 > 0 /\
  left (mem st_del 107) = NULL /\ right (mem st_del 107) = NULL /\
  heap_ordered heap_test_cmp st_del = false /\
  heap_ordered heap_test_cmp (heap_fixup st_del 107 heap_test_cmp) = true.
Proof. vm_compute. repeat split; try reflexivity; discriminate. Qed.

(** C2 (code bug, with [heap_remove] and [heap_erase] modelled from the
    spec): starting from an empty root, the order invariant holds after each
    of the seven inserts of the example, but fails after the next delete. *)
Theorem heap_order_broken_by_delete :
  forallb (fun k => heap_ordered heap_test_cmp
                      (heap_insert_seq st0 (firstn k nodes) heap_test_cmp))
          (seq 0 (S (length nodes))) = true /\
  heap_ordered heap_test_cmp st_del = false.
Proof. vm_compute. split; reflexivity. Qed.

(** ** Round trip *)

(** C3: inserting [N] distinct nodes into an empty root (over any memory)
    and then deleting all of them, in any order, leaves the root empty with
    count 0; [N] is bounded by the range of the [unsigned int] count. *)
Theorem heap_round_trip (cmp : heap_cmp_t) (m : Z -> heap_node) (l dl : list Z) :
  NoDup l -> ~ In NULL l -> Z.of_nat (length l) < UINT_MOD -> Permutation l dl ->
  let st := heap_delete_seq (heap_insert_seq (mk_state m HEAP_INIT) l cmp) dl cmp in
  node (root st) = NULL /\ count (root st) = 0.
Proof.
  intros Hnd Hnn Hb Hp.
  destruct (heap_insert_seq_shape cmp l (mk_state m HEAP_INIT) [] (heap_shape_init m))
    as [arr [Hs Hpa]]; [rewrite app_nil_r; exact Hnd | exact Hnn | cbn [length plus]; exact Hb |].
  rewrite app_nil_r in Hpa.
  pose proof (heap_delete_seq_shape cmp dl _ arr Hs
                (perm_trans (Permutation_sym Hpa) Hp)) as (Hc & _ & Hr & _).
  split; [exact Hr | exact Hc].
Qed.

Lemma heap_round_trip_witness :
  node (root (heap_delete_seq (heap_insert_seq st0 nodes heap_test_cmp) (rev nodes) heap_test_cmp))
    = NULL /\
  count (root (heap_delete_seq (heap_insert_seq st0 nodes heap_test_cmp) (rev nodes) heap_test_cmp))
    = 0.
Proof.
  apply (heap_round_trip heap_test_cmp (fun _ => mk_node NULL NULL NULL) nodes (rev nodes)).
  - apply nodupb_NoDup. vm_compute. reflexivity.
  - vm_compute. lia.
  - vm_compute. reflexivity.
  - apply Permutation_rev.
Defined.

(** ** The shape navigator *)

(** C4 (with [heap_parent] modelled from the spec): on a complete tree
    whose level-order layout is [arr], rank 1 is the root slot; for every
    rank [r] from 2 to [count + 1] the walk down the bits of [r] (most
    significant first, below the leading 1) ends at the node of rank [r / 2],
    and the last bit picks its [left] (0) or [right] (1) slot; each partial
    walk ends at the node whose rank is the corresponding prefix of [r]; the
    slot of an existing rank holds its node; [heap_insert] resolves the rank
    [count + 1], and linking the new node there yields the complete tree
    whose layout is [arr] followed by the new node. *)
Theorem heap_parent_complete (st : state) (arr : list Z) (n : Z) :
  heap_shape st arr ->
  heap_parent_rank st 1 = (NULL, RootLink) /\
  (forall r, 2 <= r <= Z.of_nat (length arr) + 1 ->
     heap_parent_rank st r =
     (at_rank arr (r / 2),
      if Z.testbit r 0 then RightLink (at_rank arr (r / 2)) else LeftLink (at_rank arr (r / 2)))) /\
  (forall r k, 0 <= r -> 1 <= r / 2 ^ (Z.of_nat k + 1) -> r / 2 <= Z.of_nat (length arr) ->
     heap_path (mem st) (at_rank arr (r / 2 ^ (Z.of_nat k + 1))) r k = at_rank arr (r / 2)) /\
  (forall r, 1 <= r <= Z.of_nat (length arr) ->
     read_link st (snd (heap_parent_rank st r)) = at_rank arr r) /\
  (Z.of_nat (length arr) + 1 < UINT_MOD ->
     heap_parent st n = heap_parent_rank st (Z.of_nat (length arr) + 1)) /\
  (~ In n arr -> n <> NULL -> Z.of_nat (length arr) + 1 < UINT_MOD ->
     heap_shape (heap_link None st (fst (heap_parent st n)) (snd (heap_parent st n)) n)
                (arr ++ [n])).
Proof.
  intros Hs. pose proof Hs as (Hc & _ & _ & _ & Hnn & _).
  split; [reflexivity|]. split; [intros r Hr; apply heap_parent_rank_shape; assumption|].
  split; [intros r k Hr H1 H2; apply (heap_path_rank st arr); auto|].
  split.
  - intros r Hr. pose proof (heap_find_shape st arr r Hs Hr) as H. unfold heap_find in H.
    destruct (_ || _ || _); [|exact H].
    exfalso. exact (at_rank_nonnull arr r Hnn Hr (eq_sym H)).
  - split.
    + intros Hb. unfold heap_parent. rewrite Hc, Z.mod_small; [reflexivity | lia].
    + intros Hn Hn0 Hb. apply heap_link_shape; assumption.
Qed.

Lemma heap_parent_complete_witness :
  heap_parent st_ins 108 = heap_parent_rank st_ins (Z.of_nat (length nodes) + 1).
Proof.
  refine (proj1 (proj2 (proj2 (proj2 (proj2
            (heap_parent_complete st_ins nodes 108 _))))) _).
  - apply heap_shapeb_spec. vm_compute. reflexivity.
  - vm_compute. reflexivity.
Defined.

(** ** Level-order traversal *)

(** C5 (with [heap_level_first] and [heap_level_next] modelled from the
    spec): [heap_level_first] returns the root (rank 1) with the cursor 1,
    [NULL] exactly when the tree is empty; [heap_level_next] increments the
    cursor and returns the node of the new rank, [NULL] exactly when the
    cursor exceeds [count]; a full [heap_for_each] loop visits [count]
    nodes, each linked node once, the [i]-th of them being the node of rank
    [i + 1]. *)
Theorem heap_level_traversal (st : state) (arr : list Z) :
  heap_shape st arr ->
  heap_level_first st = (at_rank arr 1, 1) /\
  (fst (heap_level_first st) = NULL <-> count (root st) = 0) /\
  (forall i, 0 <= i < ULONG_MOD - 1 ->
     heap_level_next st i = (at_rank arr (i + 1), i + 1) /\
     (fst (heap_level_next st i) = NULL <-> count (root st) < i + 1)) /\
  (forall fuel, (length arr < fuel)%nat ->
     heap_for_each fuel st = heap_decode st /\
     Z.of_nat (length (heap_for_each fuel st)) = count (root st) /\
     NoDup (heap_for_each fuel st) /\
     (forall x, In x (heap_for_each fuel st) <-> In x arr) /\
     (forall i, (i < length arr)%nat ->
        heap_rank st (nth i (heap_for_each fuel st) NULL) = Z.of_nat i + 1)).
Proof.
  intros Hs. pose proof Hs as (Hc & Hb & Hroot & Hnd & Hnn & _).
  assert (Hf : heap_level_first st = (at_rank arr 1, 1))
    by (unfold heap_level_first; rewrite Hroot; reflexivity).
  assert (Hn : forall i, 0 <= i < ULONG_MOD - 1 ->
                 heap_level_next st i = (at_rank arr (i + 1), i + 1)).
  { intros i Hi. unfold heap_level_next. rewrite Z.mod_small by lia.
    rewrite (heap_find_shape_all st arr (i + 1) Hs) by lia. reflexivity. }
  split; [exact Hf|]. split.
  { rewrite Hf, Hc. cbn [fst]. rewrite (at_rank_null_iff arr 1 Hnn) by lia. lia. }
  split.
  { intros i Hi. rewrite (Hn i Hi). split; [reflexivity|]. cbn [fst].
    rewrite Hc. apply at_rank_null_iff; [exact Hnn | lia]. }
  intros fuel Hfuel. rewrite (heap_for_each_shape st arr fuel Hs Hfuel).
  split; [symmetry; apply heap_decode_shape, Hs|].
  split; [symmetry; exact Hc|]. split; [exact Hnd|]. split; [tauto|].
  intros i Hi. rewrite <- (heap_rank_shape st arr (Z.of_nat i + 1) Hs) by lia.
  rewrite at_rank_in by lia. f_equal. f_equal. lia.
Qed.

Lemma heap_level_traversal_witness :
  heap_for_each 8%nat st_ins = heap_decode st_ins.
Proof.
  refine (proj1 (proj2 (proj2 (proj2 (heap_level_traversal st_ins nodes _))) 8%nat _)).
  - apply heap_shapeb_spec. vm_compute. reflexivity.
  - vm_compute. lia.
Defined.

(** C6 (with the cursor functions modelled from the spec): on an unchanged
    tree, resuming after [k] steps of a traversal, with
    [heap_for_each_continue] from the saved cursor or with
    [heap_for_each_from] from the saved node and cursor, yields exactly the
    rest of the uninterrupted traversal; more generally, what
    [heap_for_each_continue] yields depends only on the cursor value. *)
Theorem heap_restart (st : state) (arr : list Z) (fuel k : nat) :
  heap_shape st arr -> (length arr < fuel)%nat -> (k <= length arr)%nat ->
  heap_for_each_continue fuel st (snd (heap_level_iter st k)) =
    skipn (S k) (heap_for_each fuel st) /\
  heap_for_each_from fuel st (fst (heap_level_iter st k)) (snd (heap_level_iter st k)) =
    skipn k (heap_for_each fuel st) /\
  (forall i, 0 <= i < ULONG_MOD - 1 ->
     heap_for_each_continue fuel st i = skipn (Z.to_nat i) (heap_for_each fuel st)).
Proof.
  intros Hs Hfuel Hk. pose proof Hs as (_ & Hb & _).
  rewrite (heap_for_each_shape st arr fuel Hs Hfuel).
  assert (Hc : forall i, 0 <= i < ULONG_MOD - 1 ->
                 heap_for_each_continue fuel st i = skipn (Z.to_nat i) arr).
  { intros i Hi. unfold heap_for_each_continue, heap_level_next.
    rewrite Z.mod_small by lia.
    rewrite (heap_find_shape_all st arr (i + 1) Hs) by lia.
    rewrite (heap_for_each_from_shape st arr fuel (i + 1) Hs) by lia.
    f_equal. lia. }
  rewrite (heap_level_iter_shape st arr k Hs) by (unfold ULONG_MOD, UINT_MOD in *; lia).
  cbn [fst snd]. split; [|split; [|exact Hc]].
  - rewrite Hc by (unfold ULONG_MOD, UINT_MOD in *; lia). f_equal. lia.
  - rewrite (heap_for_each_from_shape st arr fuel _ Hs) by lia. f_equal. lia.
Qed.

Lemma heap_restart_witness :
  heap_for_each_continue 8%nat st_ins (snd (heap_level_iter st_ins 5%nat)) =
    skipn 6%nat (heap_for_each 8%nat st_ins).
Proof.
  refine (proj1 (heap_restart st_ins nodes 8%nat 5%nat _ _ _)).
  - apply heap_shapeb_spec. vm_compute. reflexivity.
  - vm_compute. lia.
  - vm_compute. lia.
Defined.

(** ** Debug hooks *)

(** C7: in a [DEBUG_HEAP] build, a rejecting [heap_debug_link_check] makes
    [heap_link] leave the whole state (memory and root) unchanged, and a
    rejecting [heap_debug_delete_check] does the same for [heap_delete];
    each implication holds on its own, whatever the other check returns. *)
Theorem heap_debug_reject_noop (d : heap_debug) (st : state) (par : Z) (l : link)
    (n m : Z) (cmp : heap_cmp_t) :
  (heap_debug_link_check d st par l n = false -> heap_link (Some d) st par l n = st) /\
  (heap_debug_delete_check d st m = false -> heap_delete (Some d) st m cmp = st).
Proof.
  split.
  - intros Hl. unfold heap_link, link_check. rewrite Hl. reflexivity.
  - intros Hd. unfold heap_delete, delete_check. rewrite Hd. reflexivity.
Qed.

(** Each check alone: a record rejecting only links, and one rejecting
    only deletions. *)
Lemma heap_debug_reject_noop_witness :
  heap_link (Some (mk_debug (fun _ _ _ _ => false) (fun _ _ => true)))
    st_ins 107 (LeftLink 107) 108 = st_ins /\
  heap_delete (Some (mk_debug (fun _ _ _ _ => true) (fun _ _ => false)))
    st_ins 104 heap_test_cmp = st_ins.
Proof.
  split.
  - apply (proj1 (heap_debug_reject_noop (mk_debug (fun _ _ _ _ => false) (fun _ _ => true))
                    st_ins 107 (LeftLink 107) 108 104 heap_test_cmp)).
    reflexivity.
  - apply (proj2 (heap_debug_reject_noop (mk_debug (fun _ _ _ _ => true) (fun _ _ => false))
                    st_ins 107 (LeftLink 107) 108 104 heap_test_cmp)).
    reflexivity.
Defined.

(** ** Poisoned links *)

(** C8: whenever [heap_delete] goes through (always in the default build),
    the deleted node's [parent], [left] and [right] hold [POISON_HPNODE3],
    [POISON_HPNODE1] and [POISON_HPNODE2], three distinct non-NULL values. *)
Theorem heap_delete_poison (dbg : option heap_debug) (st : state) (n : Z) (cmp : heap_cmp_t) :
  delete_check dbg st n = true ->
  mem (heap_delete dbg st n cmp) n = mk_node POISON_HPNODE3 POISON_HPNODE1 POISON_HPNODE2 /\
  POISON_HPNODE1 <> POISON_HPNODE2 /\ POISON_HPNODE1 <> POISON_HPNODE3 /\
  POISON_HPNODE2 <> POISON_HPNODE3 /\
  POISON_HPNODE1 <> NULL /\ POISON_HPNODE2 <> NULL /\ POISON_HPNODE3 <> NULL.
Proof.
  intros Hd. unfold heap_delete. rewrite Hd. cbn [negb].
  destruct (heap_remove st n) as [st1 reb].
  split.
  - unfold set_parent, set_right, set_left, upd. cbn [mem]. rewrite !Z.eqb_refl. reflexivity.
  - unfold POISON_HPNODE1, POISON_HPNODE2, POISON_HPNODE3, POISON_OFFSET, NULL. lia.
Qed.

Lemma heap_delete_poison_witness :
  mem (heap_delete None st_ins 104 heap_test_cmp) 104 =
    mk_node POISON_HPNODE3 POISON_HPNODE1 POISON_HPNODE2.
Proof.
  refine (proj1 (heap_delete_poison None st_ins 104 heap_test_cmp _)). reflexivity.
Defined.

(** ** Linking a new node *)

(** C9: when [heap_link] goes through (always in the default build) and the
    slot [link] is not a field of [node] itself, [node] becomes a leaf
    whose [parent] is [parent], the slot points to [node], [count] goes up
    by one ([unsigned int]: modulo 2^32, exactly one below the limit), no
    other node changes, and [heap_insert] / [heap_insert_node] are this
    link followed by [heap_fixup], at the slot the navigator resolves. *)
Theorem heap_link_leaf (dbg : option heap_debug) (st : state) (par : Z) (l : link) (n : Z) :
  link_check dbg st par l n = true -> link_owner l <> n ->
  let st' := heap_link dbg st par l n in
  mem st' n = mk_node par NULL NULL /\
  read_link st' l = n /\
  count (root st') = (count (root st) + 1) mod UINT_MOD /\
  (0 <= count (root st) < UINT_MOD - 1 -> count (root st') = count (root st) + 1) /\
  (forall x, x <> n -> x <> link_owner l -> mem st' x = mem st x) /\
  (forall cmp, heap_insert_node dbg st par l n cmp = heap_fixup st' n cmp) /\
  (forall cmp, heap_insert dbg st n cmp =
     heap_fixup (heap_link dbg st (fst (heap_parent st n)) (snd (heap_parent st n)) n) n cmp).
Proof.
  intros Hl Ho st'. subst st'. unfold heap_link. rewrite Hl. cbn [negb].
  split; [|split; [|split; [|split; [|split; [|split]]]]].
  - unfold set_count, set_left, set_right, set_parent, upd. cbn [mem].
    rewrite !Z.eqb_refl. reflexivity.
  - destruct l as [|p|p]; cbn [link_owner] in Ho; [reflexivity| |];
      cbn [read_link write_link]; unfold set_count, set_left, set_right, set_parent, upd;
      cbn [mem left right]; apply Z.eqb_neq in Ho; rewrite !Ho, !Z.eqb_refl; reflexivity.
  - destruct l; reflexivity.
  - intros Hc. replace (count (root (write_link st l n))) with (count (root st))
      by (destruct l; reflexivity).
    destruct l; cbn [set_count root count]; apply Z.mod_small; lia.
  - intros x Hx Hxo. unfold set_count, set_left, set_right, set_parent, upd. cbn [mem].
    apply Z.eqb_neq in Hx. rewrite !Hx. apply write_link_mem_other. congruence.
  - intros cmp. unfold heap_insert_node, heap_link. rewrite Hl. reflexivity.
  - intros cmp. unfold heap_insert. destruct (heap_parent st n). reflexivity.
Qed.

Lemma heap_link_leaf_witness :
  mem (heap_link None st_ins 104 (LeftLink 104) 108) 108 = mk_node 104 NULL NULL.
Proof.
  refine (proj1 (heap_link_leaf None st_ins 104 (LeftLink 104) 108 _ _)).
  - reflexivity.
  - cbn [link_owner]. lia.
Defined.

(** ** The unlinked-node predicate *)

(** C10: after a [heap_delete] that goes through, [HEAP_EMPTY_NODE] is false
    for the deleted node, whose [parent] is [POISON_HPNODE3], provided the
    node is not at that address itself; [HEAP_CLEAR_NODE] makes
    [HEAP_EMPTY_NODE] true, and [heap_link] under a parent other than the
    node makes it false. *)
Theorem heap_delete_not_empty_node (dbg : option heap_debug) (st : state) (n : Z)
    (cmp : heap_cmp_t) :
  delete_check dbg st n = true -> n <> POISON_HPNODE3 ->
  HEAP_EMPTY_NODE (heap_delete dbg st n cmp) n = false /\
  (forall st0 m, HEAP_EMPTY_NODE (HEAP_CLEAR_NODE st0 m) m = true) /\
  (forall st0 par l m, link_check dbg st0 par l m = true -> par <> m ->
     HEAP_EMPTY_NODE (heap_link dbg st0 par l m) m = false).
Proof.
  intros Hd Hn. split; [|split].
  - unfold HEAP_EMPTY_NODE, heap_delete. rewrite Hd. cbn [negb].
    destruct (heap_remove st n) as [st1 reb].
    unfold set_parent, set_right, set_left, upd. cbn [mem]. rewrite !Z.eqb_refl. cbn [parent].
    apply Z.eqb_neq. congruence.
  - intros st0 m. unfold HEAP_EMPTY_NODE, HEAP_CLEAR_NODE, set_parent, upd. cbn [mem].
    rewrite !Z.eqb_refl. reflexivity.
  - intros st0 par l m Hl Hp. unfold HEAP_EMPTY_NODE, heap_link. rewrite Hl. cbn [negb].
    unfold set_count, set_left, set_right, set_parent, upd. cbn [mem].
    rewrite !Z.eqb_refl. cbn [parent]. apply Z.eqb_neq, Hp.
Qed.

Lemma heap_delete_not_empty_node_witness :
  HEAP_EMPTY_NODE (heap_delete None st_ins 104 heap_test_cmp) 104 = false.
Proof.
  refine (proj1 (heap_delete_not_empty_node None st_ins 104 heap_test_cmp _ _)).
  - reflexivity.
  - unfold POISON_HPNODE3, POISON_OFFSET. lia.
Defined.

End HeapClaims.

(** * The order maintained by insertion and deletion *)
Module HeapOrderFacts.
Import Heap HeapExamples HeapFacts.

(** ** One exchange step on the keys of the ranks

    [f q] is the key of the node of rank [q] of a tree of [len] nodes. *)

(** Sift-up: the tree is ordered except between [i] and its parent, and
    the parent of [i] is below the children of [i]; exchanging [i] with a
    greater parent moves the exception one level up. *)
Lemma sift_up_step (f : Z -> Z) (len i : Z) :
  2 <= i <= len ->
  (forall q, 2 <= q <= len -> q <> i -> f (q / 2) <= f q) ->
  (forall c, 2 <= c <= len -> c / 2 = i -> f (i / 2) <= f c) ->
  f i < f (i / 2) ->
  let g := fun q => if q =? i / 2 then f i else if q =? i then f (i / 2) else f q in
  (forall q, 2 <= q <= len -> q <> i / 2 -> g (q / 2) <= g q) /\
  (2 <= i / 2 -> forall c, 2 <= c <= len -> c / 2 = i / 2 -> g (i / 2 / 2) <= g c).
Proof.
  intros Hi H1 H2 Hlt g. unfold g.
  assert (Hp : i / 2 < i) by lia_div.
  split.
  - intros q Hq Hqp. rewrite (proj2 (Z.eqb_neq q (i / 2)) Hqp).
    destruct (Z.eqb_spec q i) as [->|Hqi].
    + rewrite Z.eqb_refl. lia.
    + destruct (Z.eqb_spec (q / 2) (i / 2)) as [E|E].
      * pose proof (H1 q Hq Hqi) as H. rewrite E in H. lia.
      * destruct (Z.eqb_spec (q / 2) i) as [E2|E2].
        -- exact (H2 q Hq E2).
        -- exact (H1 q Hq Hqi).
  - intros Hp2 c Hc Ec.
    assert (Hpp : i / 2 / 2 < i / 2) by lia_div.
    rewrite (proj2 (Z.eqb_neq (i / 2 / 2) (i / 2))) by lia.
    rewrite (proj2 (Z.eqb_neq (i / 2 / 2) i)) by lia.
    assert (Hcp : c <> i / 2) by lia_div.
    rewrite (proj2 (Z.eqb_neq c (i / 2)) Hcp).
    pose proof (H1 (i / 2) ltac:(lia) ltac:(lia)) as Hg.
    destruct (Z.eqb_spec c i) as [->|Hci]; [exact Hg|].
    pose proof (H1 c Hc Hci) as H. rewrite Ec in H. lia.
Qed.

(** Sift-down: the tree is ordered except between [i] and its children,
    and the parent of [i] is below the children of [i]; exchanging [i] with
    its smallest child [c], when that child is smaller, moves the exception
    one level down. *)
Lemma sift_down_step (f : Z -> Z) (len i c : Z) :
  1 <= i -> 2 <= c <= len -> c / 2 = i ->
  (forall q, 2 <= q <= len -> q / 2 <> i -> f (q / 2) <= f q) ->
  (2 <= i -> forall d, 2 <= d <= len -> d / 2 = i -> f (i / 2) <= f d) ->
  (forall d, 2 <= d <= len -> d / 2 = i -> f c <= f d) ->
  f c < f i ->
  let g := fun q => if q =? i then f c else if q =? c then f i else f q in
  (forall q, 2 <= q <= len -> q / 2 <> c -> g (q / 2) <= g q) /\
  (forall d, 2 <= d <= len -> d / 2 = c -> g (c / 2) <= g d).
Proof.
  intros Hi Hc Eci H1 H2 Hmin Hlt g. unfold g.
  assert (Hic : i < c) by lia_div.
  split.
  - intros q Hq Hqc. destruct (Z.eqb_spec q i) as [->|Hqi].
    + assert (i / 2 < i) by lia_div.
      rewrite (proj2 (Z.eqb_neq (i / 2) i)) by lia.
      rewrite (proj2 (Z.eqb_neq (i / 2) c)) by lia.
      apply (H2 ltac:(lia) c Hc Eci).
    + destruct (Z.eqb_spec q c) as [->|Hqc'].
      * rewrite Eci, Z.eqb_refl. lia.
      * destruct (Z.eqb_spec (q / 2) i) as [E|E].
        -- exact (Hmin q Hq E).
        -- rewrite (proj2 (Z.eqb_neq (q / 2) c) Hqc). exact (H1 q Hq E).
  - intros d Hd Edc. rewrite Eci, Z.eqb_refl.
    assert (Hcd : c < d) by lia_div.
    rewrite (proj2 (Z.eqb_neq d i)) by lia. rewrite (proj2 (Z.eqb_neq d c)) by lia.
    pose proof (H1 d Hd ltac:(lia)) as Hd1. rewrite Edc in Hd1. exact Hd1.
Qed.

(** ** Exchanging two ranks, exactly *)

Lemma heap_swap_exact (st : state) (arr : list Z) (i j : Z) :
  heap_shape st arr -> 1 <= i <= Z.of_nat (length arr) -> 1 <= j <= Z.of_nat (length arr) ->
  let arr' := tabulate (fun q => if q =? i then at_rank arr j
                                 else if q =? j then at_rank arr i else at_rank arr q)
                       (length arr) in
  heap_shape (heap_swap st (at_rank arr i) (at_rank arr j)) arr' /\ Permutation arr arr'.
Proof.
  intros Hs Hi Hj arr'. pose proof Hs as (Hc & Hbd & _ & Hnd & Hnn & _).
  unfold heap_swap. rewrite (heap_decode_shape st arr Hs).
  rewrite (heap_rank_shape st arr i Hs Hi), (heap_rank_shape st arr j Hs Hj).
  set (sigma := fun q => if q =? i then j else if q =? j then i else q).
  assert (E : arr' = tabulate (fun q => at_rank arr (sigma q)) (length arr)).
  { unfold arr', tabulate. apply map_ext. intros k. unfold sigma.
    destruct (Z.of_nat k =? i); [reflexivity|]. destruct (Z.of_nat k =? j); reflexivity. }
  destruct (tabulate_perm arr sigma Hnd Hnn) as (Hnd' & Hnn' & Hl' & Hp).
  - intros q Hq. unfold sigma.
    destruct (Z.eqb_spec q i); [lia|]. destruct (Z.eqb_spec q j); lia.
  - intros q1 q2 H1 H2. unfold sigma.
    destruct (Z.eqb_spec q1 i), (Z.eqb_spec q1 j), (Z.eqb_spec q2 i), (Z.eqb_spec q2 j);
      lia.
  - intros q Hq. exists (sigma q). split.
    + unfold sigma. destruct (Z.eqb_spec q i); [lia|]. destruct (Z.eqb_spec q j); lia.
    + unfold sigma. swap_cases.
  - rewrite <- E in Hnd', Hnn', Hl', Hp. split; [|exact Hp].
    change (relink st arr') with (set_count (relink st arr') (count (root st))).
    apply relink_shape; auto; rewrite Hc; try rewrite Hl'; lia.
Qed.

(** ** The order, read on the layout *)

Lemma heap_key_ordered_shape (key : Z -> Z) (st : state) (arr : list Z) :
  heap_shape st arr ->
  heap_key_ordered key st = true <->
  (forall q, 2 <= q <= Z.of_nat (length arr) -> key (at_rank arr (q / 2)) <= key (at_rank arr q)).
Proof.
  intros Hs. pose proof Hs as (_ & _ & _ & _ & Hnn & Hm).
  unfold heap_key_ordered. rewrite (heap_decode_shape st arr Hs), forallb_forall. split.
  - intros H q Hq. assert (Hq1 : 1 <= q <= Z.of_nat (length arr)) by lia.
    specialize (H _ (at_rank_In arr q Hq1)). cbv zeta in H.
    rewrite (Hm q Hq1) in H. unfold slot_of in H. cbn [parent] in H.
    assert (Hp : 1 <= q / 2 <= Z.of_nat (length arr)) by lia_div.
    rewrite (proj2 (Z.eqb_neq _ NULL) (at_rank_nonnull arr _ Hnn Hp)) in H.
    cbn [orb] in H. apply Z.leb_le, H.
  - intros H x Hx. destruct (In_at_rank _ _ Hx) as [q [Hq <-]]. cbv zeta.
    rewrite (Hm q Hq). unfold slot_of. cbn [parent].
    destruct (Z.eq_dec q 1) as [->|Hq1].
    + rewrite (at_rank_out arr (1 / 2)) by (left; reflexivity). reflexivity.
    + apply orb_true_intro. right. apply Z.leb_le, H. lia.
Qed.

(** ** Removal, rank by rank *)

(** [heap_remove] on the node of rank [k]: the layout loses its last rank,
    whose node moves to rank [k] (when [k] is not the last rank) and is
    returned. *)
Lemma heap_remove_layout (st : state) (arr : list Z) (k : Z) :
  heap_shape st arr -> 1 <= k <= Z.of_nat (length arr) ->
  exists arr', heap_shape (fst (heap_remove st (at_rank arr k))) arr' /\
    Z.of_nat (length arr') = Z.of_nat (length arr) - 1 /\
    (forall q, 1 <= q <= Z.of_nat (length arr) - 1 ->
       at_rank arr' q = if q =? k then at_rank arr (Z.of_nat (length arr)) else at_rank arr q) /\
    snd (heap_remove st (at_rank arr k)) =
      (if k =? Z.of_nat (length arr) then NULL else at_rank arr (Z.of_nat (length arr))).
Proof.
  intros Hs Hk. pose proof Hs as (Hc & Hbd & Hroot & Hnd & Hnn & Hm).
  assert (Hne : arr <> []) by (intros E; subst arr; cbn in Hk; lia).
  destruct (exists_last Hne) as [arr0 [x Harr]].
  assert (Hlen : Z.of_nat (length arr) = Z.of_nat (length arr0) + 1)
    by (rewrite Harr, length_app; cbn [length]; lia).
  assert (Hxl : at_rank arr (Z.of_nat (length arr)) = x).
  { rewrite Hlen. rewrite Harr at 1. rewrite at_rank_app_last, Z.eqb_refl. reflexivity. }
  assert (Hlast : heap_find st (Z.of_nat (length arr)) = x).
  { rewrite (heap_find_shape st arr) by (auto; lia). exact Hxl. }
  unfold heap_remove. rewrite Hc, Hlast.
  destruct (Z.eqb_spec x (at_rank arr k)) as [Ex|Ex].
  - assert (Ek : k = Z.of_nat (length arr)).
    { apply (at_rank_inj arr); auto; [lia|]. rewrite Hxl. symmetry. exact Ex. }
    subst k. exists arr0. cbn [fst snd]. rewrite Z.eqb_refl.
    split; [|split; [lia|split; [|reflexivity]]].
    + rewrite Hlen. replace ((Z.of_nat (length arr0) + 1 - 1) mod UINT_MOD)
        with (Z.of_nat (length arr0)) by (rewrite Z.mod_small; lia).
      apply (heap_unlink_last_shape st arr0 x). rewrite <- Harr. exact Hs.
    + intros q Hq. rewrite (proj2 (Z.eqb_neq q _)) by lia.
      rewrite Harr, at_rank_app_last.
      rewrite (proj2 (Z.eqb_neq q _)) by lia. reflexivity.
  - assert (Hkl : k <> Z.of_nat (length arr)) by (intros E; apply Ex; rewrite E; symmetry; exact Hxl).
    rewrite (heap_decode_shape st arr Hs), (heap_rank_shape st arr k Hs Hk).
    replace (Z.to_nat (Z.of_nat (length arr)) - 1)%nat with (length arr0) by lia.
    set (sigma := fun q => if q =? k then Z.of_nat (length arr) else q).
    assert (E : tabulate (fun q => if q =? k then x else at_rank arr q) (length arr0) =
                tabulate (fun q => at_rank arr (sigma q)) (length arr0)).
    { unfold tabulate. apply map_ext. intros i. unfold sigma.
      destruct (Z.of_nat i =? k); [symmetry; exact Hxl | reflexivity]. }
    rewrite E. set (arr' := tabulate (fun q => at_rank arr (sigma q)) (length arr0)).
    assert (Hr : forall q, 1 <= q <= Z.of_nat (length arr0) ->
                   1 <= sigma q <= Z.of_nat (length arr)).
    { intros q Hq. unfold sigma. destruct (Z.eqb_spec q k); lia. }
    assert (Hinj : forall q1 q2, 1 <= q1 <= Z.of_nat (length arr0) ->
                     1 <= q2 <= Z.of_nat (length arr0) -> sigma q1 = sigma q2 -> q1 = q2).
    { intros q1 q2 H1 H2. unfold sigma.
      destruct (Z.eqb_spec q1 k), (Z.eqb_spec q2 k); lia. }
    destruct (tabulate_sub arr (length arr0) sigma Hnd Hnn Hr Hinj) as (Hnd' & Hnn' & Hl').
    fold arr' in Hnd', Hnn', Hl'.
    exists arr'. cbn [fst snd]. rewrite (proj2 (Z.eqb_neq k _) Hkl).
    split; [|split; [|split; [|symmetry; exact Hxl]]].
    + apply relink_shape; [exact Hnd' | exact Hnn' | |].
      * rewrite Hl', Z.mod_small; lia.
      * apply Z.mod_pos_bound. unfold UINT_MOD. lia.
    + rewrite Hl'. lia.
    + intros q Hq. unfold arr'. rewrite at_rank_tabulate by lia. unfold sigma. destruct (q =? k); reflexivity.
Qed.

Section Order.
Variable key : Z -> Z.
Variable cmp : heap_cmp_t.
(** The comparator orders by [key]: it is negative exactly on smaller keys. *)
Hypothesis cmp_key : forall a b, cmp a b < 0 <-> key a < key b.

Lemma cmp_key_b (a b : Z) : (cmp a b <? 0) = (key a <? key b).
Proof.
  destruct (Z.ltb_spec (cmp a b) 0), (Z.ltb_spec (key a) (key b)); try reflexivity;
    apply cmp_key in H || apply cmp_key in H0; lia.
Qed.

Lemma heap_fixup_loop_order (fuel : nat) :
  forall st arr i,
  heap_shape st arr -> 1 <= i <= Z.of_nat (length arr) -> i - 1 <= Z.of_nat fuel ->
  (forall q, 2 <= q <= Z.of_nat (length arr) -> q <> i ->
     key (at_rank arr (q / 2)) <= key (at_rank arr q)) ->
  (2 <= i -> forall c, 2 <= c <= Z.of_nat (length arr) -> c / 2 = i ->
     key (at_rank arr (i / 2)) <= key (at_rank arr c)) ->
  exists arr', heap_shape (heap_fixup_loop cmp fuel st (at_rank arr i)) arr' /\
    Permutation arr arr' /\
    forall q, 2 <= q <= Z.of_nat (length arr') ->
      key (at_rank arr' (q / 2)) <= key (at_rank arr' q).
Proof.
  induction fuel as [|f IH]; intros st arr i Hs Hi Hf H1 H2; cbn [heap_fixup_loop].
  - exists arr. split; [exact Hs|]. split; [reflexivity|].
    intros q Hq. apply H1; lia.
  - pose proof Hs as (_ & _ & _ & _ & Hnn & Hm).
    rewrite (Hm i Hi). unfold slot_of. cbn [parent].
    destruct (Z.eq_dec i 1) as [->|Hi1].
    { rewrite (at_rank_out arr (1 / 2)) by (left; reflexivity). cbn [Z.eqb].
      exists arr. split; [exact Hs|]. split; [reflexivity|].
      intros q Hq. apply H1; lia. }
    assert (Hp : 1 <= i / 2 <= Z.of_nat (length arr)) by lia_div.
    rewrite (proj2 (Z.eqb_neq _ NULL) (at_rank_nonnull arr _ Hnn Hp)).
    rewrite cmp_key_b. destruct (Z.ltb_spec (key (at_rank arr i)) (key (at_rank arr (i / 2))))
      as [Hlt|Hge].
    + destruct (heap_swap_exact st arr (i / 2) i Hs Hp Hi) as [Hs1 Hp1].
      set (arr1 := tabulate _ (length arr)) in Hs1, Hp1.
      assert (Hl1 : length arr1 = length arr) by apply tabulate_length.
      assert (Ha1 : forall q, 1 <= q <= Z.of_nat (length arr) ->
                key (at_rank arr1 q) =
                (fun q => if q =? i / 2 then key (at_rank arr i)
                          else if q =? i then key (at_rank arr (i / 2))
                          else key (at_rank arr q)) q).
      { intros q Hq. unfold arr1. rewrite at_rank_tabulate by exact Hq.
        destruct (q =? i / 2); [reflexivity|]. destruct (q =? i); reflexivity. }
      assert (Hn1 : at_rank arr1 (i / 2) = at_rank arr i).
      { unfold arr1. rewrite at_rank_tabulate by exact Hp. rewrite Z.eqb_refl. reflexivity. }
      destruct (sift_up_step (fun q => key (at_rank arr q)) (Z.of_nat (length arr)) i
                  ltac:(lia) H1 (H2 ltac:(lia)) Hlt) as [G1 G2].
      destruct (IH _ arr1 (i / 2) Hs1) as [arr' [Hs' [Hp' Ho']]].
      * rewrite Hl1. exact Hp.
      * assert (i / 2 < i) by lia_div. lia.
      * intros q Hq Hqi. rewrite Hl1 in Hq.
        assert (1 <= q / 2 <= Z.of_nat (length arr)) by lia_div.
        rewrite !Ha1 by lia. exact (G1 q Hq Hqi).
      * intros Hi2 c Hc Ec. rewrite Hl1 in Hc.
        assert (1 <= i / 2 / 2 <= Z.of_nat (length arr)) by lia_div.
        rewrite !Ha1 by lia. exact (G2 Hi2 c Hc Ec).
      * rewrite Hn1 in Hs'. exists arr'. split; [exact Hs'|].
        split; [exact (perm_trans Hp1 Hp')|exact Ho'].
    + exists arr. split; [exact Hs|]. split; [reflexivity|].
      intros q Hq. destruct (Z.eq_dec q i) as [->|Hqi]; [lia | apply H1; lia].
Qed.

Lemma heap_erase_loop_order (fuel : nat) :
  forall st arr i,
  heap_shape st arr -> 1 <= i <= Z.of_nat (length arr) ->
  Z.of_nat (length arr) - i < Z.of_nat fuel ->
  (forall q, 2 <= q <= Z.of_nat (length arr) -> q / 2 <> i ->
     key (at_rank arr (q / 2)) <= key (at_rank arr q)) ->
  (2 <= i -> forall c, 2 <= c <= Z.of_nat (length arr) -> c / 2 = i ->
     key (at_rank arr (i / 2)) <= key (at_rank arr c)) ->
  exists arr', heap_shape (heap_erase_loop cmp fuel st (at_rank arr i)) arr' /\
    Permutation arr arr' /\
    forall q, 2 <= q <= Z.of_nat (length arr') ->
      key (at_rank arr' (q / 2)) <= key (at_rank arr' q).
Proof.
  induction fuel as [|f IH]; intros st arr i Hs Hi Hf H1 H2; [lia|].
  cbn [heap_erase_loop].
  pose proof Hs as (_ & _ & _ & _ & Hnn & Hm).
  set (len := Z.of_nat (length arr)) in *.
  rewrite (Hm i Hi). unfold slot_of. cbn [left right].
  destruct (Z_le_gt_dec (2 * i) len) as [Hl|Hl].
  2:{ rewrite (at_rank_out arr (2 * i)) by (right; fold len; lia). rewrite Z.eqb_refl.
      exists arr. split; [exact Hs|]. split; [reflexivity|].
      intros q Hq. apply H1; [exact Hq|]. intros E. assert (2 * i <= q) by lia_div. lia. }
  rewrite (proj2 (Z.eqb_neq _ NULL) (at_rank_nonnull arr (2 * i) Hnn ltac:(lia))).
  assert (Hc : exists c, c / 2 = i /\ 2 <= c <= len /\
             (forall d, 2 <= d <= len -> d / 2 = i -> key (at_rank arr c) <= key (at_rank arr d)) /\
             (if negb (at_rank arr (2 * i + 1) =? NULL) &&
                 (cmp (at_rank arr (2 * i + 1)) (at_rank arr (2 * i)) <? 0)
              then at_rank arr (2 * i + 1) else at_rank arr (2 * i)) = at_rank arr c).
  { assert (Hd : forall d, d / 2 = i -> d = 2 * i \/ d = 2 * i + 1) by (intros d Ed; lia_div).
    destruct (Z_le_gt_dec (2 * i + 1) len) as [Hr|Hr].
    - rewrite (proj2 (Z.eqb_neq _ NULL) (at_rank_nonnull arr (2 * i + 1) Hnn ltac:(lia))).
      cbn [negb andb]. rewrite cmp_key_b.
      destruct (Z.ltb_spec (key (at_rank arr (2 * i + 1))) (key (at_rank arr (2 * i)))).
      + exists (2 * i + 1). split; [lia_div|]. split; [lia|]. split; [|reflexivity].
        intros d Hd' Ed. destruct (Hd d Ed) as [->| ->]; lia.
      + exists (2 * i). split; [lia_div|]. split; [lia|]. split; [|reflexivity].
        intros d Hd' Ed. destruct (Hd d Ed) as [->| ->]; lia.
    - rewrite (at_rank_out arr (2 * i + 1)) by (right; fold len; lia). cbn [Z.eqb negb andb].
      exists (2 * i). split; [lia_div|]. split; [lia|]. split; [|reflexivity].
      intros d Hd' Ed. destruct (Hd d Ed) as [->| ->]; lia. }
  destruct Hc as [c (Ec & Hcr & Hmin & ->)].
  rewrite cmp_key_b.
  destruct (Z.ltb_spec (key (at_rank arr c)) (key (at_rank arr i))) as [Hlt|Hge].
  - destruct (heap_swap_exact st arr i c Hs Hi ltac:(lia)) as [Hs1 Hp1].
    set (arr1 := tabulate _ (length arr)) in Hs1, Hp1.
    assert (Hl1 : length arr1 = length arr) by apply tabulate_length.
    assert (Ha1 : forall q, 1 <= q <= len ->
              key (at_rank arr1 q) =
              (fun q => if q =? i then key (at_rank arr c)
                        else if q =? c then key (at_rank arr i)
                        else key (at_rank arr q)) q).
    { intros q Hq. unfold arr1. rewrite at_rank_tabulate by exact Hq.
      destruct (q =? i); [reflexivity|]. destruct (q =? c); reflexivity. }
    assert (Hn1 : at_rank arr1 c = at_rank arr i).
    { unfold arr1. rewrite at_rank_tabulate by lia.
      rewrite (proj2 (Z.eqb_neq c i)) by lia_div. rewrite Z.eqb_refl. reflexivity. }
    destruct (sift_down_step (fun q => key (at_rank arr q)) len i c
                (proj1 Hi) Hcr Ec H1 H2 Hmin Hlt) as [G1 G2].
    assert (Hic : i < c) by lia_div.
    destruct (IH _ arr1 c Hs1) as [arr' [Hs' [Hp' Ho']]].
    + rewrite Hl1. lia.
    + rewrite Hl1. fold len. lia.
    + intros q Hq Hqc. rewrite Hl1 in Hq. fold len in Hq.
      assert (1 <= q / 2 <= len) by lia_div.
      rewrite !Ha1 by lia. exact (G1 q Hq Hqc).
    + intros _ d Hd Ed. rewrite Hl1 in Hd. fold len in Hd.
      rewrite !Ha1 by lia_div. exact (G2 d Hd Ed).
    + rewrite Hn1 in Hs'. exists arr'. split; [exact Hs'|].
      split; [exact (perm_trans Hp1 Hp')|exact Ho'].
  - exists arr. split; [exact Hs|]. split; [reflexivity|].
    intros q Hq. destruct (Z.eq_dec (q / 2) i) as [E|E].
    + rewrite E. pose proof (Hmin q Hq E). lia.
    + apply H1; assumption.
Qed.

(** The root of an ordered layout holds the least key. *)
Lemma layout_root_min (arr : list Z) :
  (forall q, 2 <= q <= Z.of_nat (length arr) -> key (at_rank arr (q / 2)) <= key (at_rank arr q)) ->
  forall q, 1 <= q <= Z.of_nat (length arr) -> key (at_rank arr 1) <= key (at_rank arr q).
Proof.
  intros Ho. assert (G : forall (n : nat) q, (Z.to_nat q <= n)%nat -> 1 <= q <= Z.of_nat (length arr) ->
                           key (at_rank arr 1) <= key (at_rank arr q)).
  { induction n as [|n IH]; intros q Hn Hq; [lia|].
    destruct (Z.eq_dec q 1) as [->|Hq1]; [lia|].
    assert (Hp : 1 <= q / 2 <= Z.of_nat (length arr)) by lia_div.
    assert (Hlt : (Z.to_nat (q / 2) <= n)%nat) by (assert (q / 2 < q) by lia_div; lia).
    specialize (IH _ Hlt Hp). specialize (Ho q ltac:(lia)). lia. }
  intros q Hq. exact (G (Z.to_nat q) q (le_n _) Hq).
Qed.

Lemma heap_insert_order (st : state) (arr : list Z) (n : Z) :
  heap_shape st arr -> ~ In n arr -> n <> NULL -> Z.of_nat (length arr) + 1 < UINT_MOD ->
  (forall q, 2 <= q <= Z.of_nat (length arr) -> key (at_rank arr (q / 2)) <= key (at_rank arr q)) ->
  exists arr', heap_shape (heap_insert None st n cmp) arr' /\ Permutation (n :: arr) arr' /\
    forall q, 2 <= q <= Z.of_nat (length arr') -> key (at_rank arr' (q / 2)) <= key (at_rank arr' q).
Proof.
  intros Hs Hn Hnn Hb Ho. unfold heap_insert.
  pose proof (heap_link_shape st arr n Hs Hn Hnn Hb) as Hl.
  destruct (heap_parent st n) as [par l]. cbn [fst snd] in Hl.
  unfold heap_insert_node, heap_fixup.
  set (st1 := heap_link None st par l n) in *.
  assert (Hlen1 : Z.of_nat (length (arr ++ [n])) = Z.of_nat (length arr) + 1)
    by (rewrite length_app; cbn [length]; lia).
  assert (Hc1 : count (root st1) = Z.of_nat (length arr) + 1) by (rewrite (proj1 Hl); exact Hlen1).
  assert (Hn1 : at_rank (arr ++ [n]) (Z.of_nat (length arr) + 1) = n)
    by (rewrite at_rank_app_last, Z.eqb_refl; reflexivity).
  rewrite Hc1.
  destruct (heap_fixup_loop_order (Z.to_nat (Z.of_nat (length arr) + 1)) st1 (arr ++ [n])
              (Z.of_nat (length arr) + 1) Hl) as [arr' [Hs' [Hp Ho']]].
  - rewrite Hlen1. lia.
  - lia.
  - intros q Hq Hqi. rewrite Hlen1 in Hq. rewrite !at_rank_app_last.
    rewrite (proj2 (Z.eqb_neq q _)) by lia.
    rewrite (proj2 (Z.eqb_neq (q / 2) _)) by lia_div. apply Ho. lia.
  - intros _ c Hc Ec. rewrite Hlen1 in Hc. exfalso. lia_div.
  - rewrite Hn1 in Hs'. exists arr'. split; [exact Hs'|]. split; [|exact Ho'].
    eapply perm_trans; [apply Permutation_cons_append | exact Hp].
Qed.

Lemma heap_delete_order (st : state) (arr : list Z) (k : Z) :
  heap_shape st arr -> 1 <= k <= Z.of_nat (length arr) ->
  (forall q, 2 <= q <= Z.of_nat (length arr) -> key (at_rank arr (q / 2)) <= key (at_rank arr q)) ->
  (k = 1 \/ key (at_rank arr (k / 2)) <= key (at_rank arr (Z.of_nat (length arr)))) ->
  exists arr', heap_shape (heap_delete None st (at_rank arr k) cmp) arr' /\
    Permutation arr (at_rank arr k :: arr') /\
    forall q, 2 <= q <= Z.of_nat (length arr') -> key (at_rank arr' (q / 2)) <= key (at_rank arr' q).
Proof.
  intros Hs Hk Ho Hpre. pose proof Hs as (_ & _ & _ & Hnd & Hnn & _).
  destruct (heap_delete_shape cmp st arr (at_rank arr k) Hs (at_rank_In arr k Hk)) as [arr3 [Hs3 Hp3]].
  destruct (heap_remove_layout st arr k Hs Hk) as (arr1 & Hs1 & Hl1 & Ha1 & Hreb).
  revert Hs3. unfold heap_delete, delete_check. cbn [negb].
  destruct (heap_remove st (at_rank arr k)) as [st1 reb]. cbn [fst snd] in Hs1, Hreb. intros Hs3.
  assert (Hn1 : ~ In (at_rank arr k) arr1).
  { intros H. destruct (In_at_rank _ _ H) as [q [Hq Eq]]. rewrite Hl1 in Hq.
    rewrite Ha1 in Eq by exact Hq. destruct (Z.eqb_spec q k) as [->|Hqk].
    - apply (at_rank_inj arr) in Eq; auto; lia.
    - apply (at_rank_inj arr) in Eq; auto; lia. }
  assert (Hst2 : exists arr2,
             heap_shape (if negb (reb =? NULL) then heap_erase st1 reb cmp else st1) arr2 /\
             Permutation arr1 arr2 /\
             forall q, 2 <= q <= Z.of_nat (length arr2) ->
               key (at_rank arr2 (q / 2)) <= key (at_rank arr2 q)).
  { destruct (Z.eqb_spec k (Z.of_nat (length arr))) as [Ek|Ek].
    - rewrite Hreb. cbn [Z.eqb negb]. exists arr1. split; [exact Hs1|]. split; [reflexivity|].
      intros q Hq. rewrite Hl1 in Hq. rewrite !Ha1 by lia_div.
      rewrite (proj2 (Z.eqb_neq q k)) by lia. rewrite (proj2 (Z.eqb_neq (q / 2) k)) by lia_div.
      apply Ho. lia.
    - rewrite Hreb.
      assert (Hlk : 1 <= Z.of_nat (length arr) <= Z.of_nat (length arr)) by lia.
      rewrite (proj2 (Z.eqb_neq _ NULL) (at_rank_nonnull arr _ Hnn Hlk)). cbn [negb].
      assert (Hr : at_rank arr (Z.of_nat (length arr)) = at_rank arr1 k)
        by (rewrite Ha1 by lia; rewrite Z.eqb_refl; reflexivity).
      unfold heap_erase. rewrite Hr, (proj1 Hs1).
      apply (heap_erase_loop_order _ st1 arr1 k Hs1); rewrite ?Hl1.
      + lia.
      + lia.
      + intros q Hq Hqk. rewrite !Ha1 by lia_div.
        rewrite (proj2 (Z.eqb_neq (q / 2) k) Hqk).
        destruct (Z.eqb_spec q k) as [->|Hq'].
        * destruct Hpre as [->|Hpre]; [lia | exact Hpre].
        * apply Ho. lia.
      + intros Hk2 c Hc Ec. rewrite !Ha1 by lia_div.
        rewrite (proj2 (Z.eqb_neq (k / 2) k)) by lia_div.
        rewrite (proj2 (Z.eqb_neq c k)) by lia_div.
        assert (Ek2 := Ho k ltac:(lia)). assert (Ec2 := Ho c ltac:(lia)). rewrite Ec in Ec2. lia. }
  destruct Hst2 as [arr2 [Hs2 [Hp2 Ho2]]].
  assert (Hn2 : ~ In (at_rank arr k) arr2)
    by (intros H; apply Hn1, (Permutation_in _ (Permutation_sym Hp2) H)).
  set (st2 := if negb (reb =? NULL) then heap_erase st1 reb cmp else st1) in *.
  pose proof (proj1 (set_fields_shape st2 arr2 _ POISON_HPNODE1 Hs2 Hn2)) as Hs4.
  pose proof (proj1 (proj2 (set_fields_shape _ arr2 _ POISON_HPNODE2 Hs4 Hn2))) as Hs5.
  pose proof (proj2 (proj2 (set_fields_shape _ arr2 _ POISON_HPNODE3 Hs5 Hn2))) as Hs6.
  assert (E : arr3 = arr2)
    by (rewrite <- (heap_decode_shape _ _ Hs3); exact (heap_decode_shape _ _ Hs6)).
  subst arr3. exists arr2. split; [exact Hs6|]. split; [exact Hp3 | exact Ho2].
Qed.

Lemma heap_insert_seq_order (l : list Z) :
  forall st arr, heap_shape st arr -> NoDup (l ++ arr) -> ~ In NULL l ->
  Z.of_nat (length arr + length l) < UINT_MOD ->
  (forall q, 2 <= q <= Z.of_nat (length arr) -> key (at_rank arr (q / 2)) <= key (at_rank arr q)) ->
  exists arr', heap_shape (heap_insert_seq st l cmp) arr' /\ Permutation (l ++ arr) arr' /\
    forall q, 2 <= q <= Z.of_nat (length arr') -> key (at_rank arr' (q / 2)) <= key (at_rank arr' q).
Proof.
  induction l as [|n l IH]; intros st arr Hs Hnd Hnn Hb Ho.
  - exists arr. split; [exact Hs|]. split; [reflexivity | exact Ho].
  - cbn [length app] in *.
    inversion Hnd as [|? ? Hn Hnd']; subst.
    assert (Hna : ~ In n arr) by (intros H; apply Hn, in_or_app; right; exact H).
    assert (Hn0 : n <> NULL) by (intros E; apply Hnn; left; rewrite E; reflexivity).
    destruct (heap_insert_order st arr n Hs Hna Hn0 ltac:(lia) Ho) as [arr1 [Hs1 [Hp1 Ho1]]].
    assert (Hp : Permutation (l ++ arr1) (n :: l ++ arr)).
    { eapply perm_trans; [apply Permutation_app_head, Permutation_sym, Hp1|].
      apply Permutation_sym, Permutation_middle. }
    destruct (IH (heap_insert None st n cmp) arr1 Hs1) as [arr' [Hs' [Hp' Ho']]].
    + apply (Permutation_NoDup (Permutation_sym Hp)). constructor; assumption.
    + intros H. apply Hnn. right. exact H.
    + apply Permutation_length in Hp1. cbn [length] in Hp1. lia.
    + exact Ho1.
    + exists arr'. split; [exact Hs'|]. split; [|exact Ho'].
      eapply perm_trans; [apply Permutation_sym, Hp | exact Hp'].
Qed.

Lemma heap_drain_order (fuel : nat) :
  forall st arr, heap_shape st arr -> Z.of_nat (length arr) < Z.of_nat fuel ->
  (forall q, 2 <= q <= Z.of_nat (length arr) -> key (at_rank arr (q / 2)) <= key (at_rank arr q)) ->
  heap_shape (fst (heap_drain fuel st cmp)) [] /\ Permutation arr (snd (heap_drain fuel st cmp)) /\
  Sorted (fun a b => key a <= key b) (snd (heap_drain fuel st cmp)).
Proof.
  induction fuel as [|f IH]; intros st arr Hs Hf Ho; [lia|].
  pose proof Hs as (Hc & _ & Hroot & _).
  cbn [heap_drain]. rewrite Hc.
  destruct (Z.eqb_spec (Z.of_nat (length arr)) 0) as [E|E].
  - destruct arr as [|y arr]; [|cbn [length] in E; lia].
    cbn [fst snd]. split; [exact Hs|]. split; constructor.
  - rewrite Hroot.
    destruct (heap_delete_order st arr 1 Hs ltac:(lia) Ho (or_introl eq_refl))
      as [arr1 [Hs1 [Hp1 Ho1]]].
    pose proof (Permutation_length Hp1) as Hl1. cbn [length] in Hl1.
    destruct (IH _ arr1 Hs1 ltac:(lia) Ho1) as [Hs' [Hp' Hso]].
    destruct (heap_drain f (heap_delete None st (at_rank arr 1) cmp) cmp) as [st' out].
    cbn [fst snd] in *. split; [exact Hs'|]. split.
    + eapply perm_trans; [exact Hp1 | apply perm_skip, Hp'].
    + constructor; [exact Hso|]. destruct out as [|y out]; constructor.
      assert (Hy : In y arr).
      { apply (Permutation_in _ (Permutation_sym Hp1)). right.
        apply (Permutation_in _ (Permutation_sym Hp')). left. reflexivity. }
      destruct (In_at_rank _ _ Hy) as [q [Hq <-]].
      exact (layout_root_min arr Ho q Hq).
Qed.

End Order.

End HeapOrderFacts.

(** * The example programs on a complete tree *)

Module HeapExampleFacts.
Import Heap HeapExamples HeapFacts.

(** ** [test_deepth] *)

(** The height of the subtree of rank [q] in a complete tree of [len] nodes. *)
Lemma deepth_step (len q : Z) :
  1 <= q <= len ->
  let D := fun r => if r <=? len then Z.log2 (len / r) + 1 else 0 in
  D (2 * q + 1) <= D (2 * q) /\ D q = D (2 * q) + 1.
Proof.
  intros Hq D. unfold D.
  assert (Hhalf : 2 * q <= len -> Z.log2 (len / (2 * q)) = Z.log2 (len / q) - 1).
  { intros H2. replace (2 * q) with (q * 2) by lia. rewrite <- Z.div_div by lia.
    assert (Hx : 2 <= len / q) by (apply Z.div_le_lower_bound; lia).
    assert (Hl : 1 <= Z.log2 (len / q))
      by (change 1 with (Z.log2 2); apply Z.log2_le_mono; exact Hx).
    rewrite <- (Z.shiftr_div_pow2 _ 1) by lia. change (2 ^ 1) with 2.
    rewrite Z.log2_shiftr by lia. lia. }
  rewrite (proj2 (Z.leb_le q len)) by lia.
  destruct (Z.leb_spec (2 * q) len) as [H2|H2].
  - rewrite (Hhalf H2). split; [|lia].
    destruct (Z.leb_spec (2 * q + 1) len); [|pose proof (Z.log2_nonneg (len / q)); lia].
    assert (Hmono : Z.log2 (len / (2 * q + 1)) <= Z.log2 (len / (2 * q))).
    { apply Z.log2_le_mono, Z.div_le_compat_l; lia. }
    rewrite (Hhalf H2) in Hmono. lia.
  - rewrite (proj2 (Z.leb_gt (2 * q + 1) len)) by lia.
    assert (E : len / q = 1) by (symmetry; apply (Z.div_unique _ _ _ (len - q)); lia). rewrite E. split; reflexivity.
Qed.

Lemma test_deepth_rank (st : state) (arr : list Z) :
  heap_shape st arr ->
  let D := fun r => if r <=? Z.of_nat (length arr) then Z.log2 (Z.of_nat (length arr) / r) + 1
                    else 0 in
  forall fuel q, 1 <= q -> D q <= Z.of_nat fuel ->
  test_deepth fuel (mem st) (at_rank arr q) = D q.
Proof.
  intros Hs D. pose proof Hs as (_ & Hbd & _ & _ & Hnn & Hm).
  induction fuel as [|f IH]; intros q Hq Hf; cbn [test_deepth].
  - unfold D in *. destruct (Z.leb_spec q (Z.of_nat (length arr))); [|reflexivity].
    pose proof (Z.log2_nonneg (Z.of_nat (length arr) / q)). lia.
  - destruct (Z_le_gt_dec q (Z.of_nat (length arr))) as [Hl|Hl].
    + rewrite (proj2 (Z.eqb_neq _ NULL) (at_rank_nonnull arr q Hnn (conj Hq Hl))).
      rewrite (Hm q (conj Hq Hl)). unfold slot_of. cbn [left right].
      assert (G : D (2 * q + 1) <= D (2 * q) /\ D q = D (2 * q) + 1)
        by exact (deepth_step (Z.of_nat (length arr)) q (conj Hq Hl)).
      assert (HD : forall r, 0 <= D r).
      { intros r. unfold D. destruct (r <=? _); [|lia].
        pose proof (Z.log2_nonneg (Z.of_nat (length arr) / r)). lia. }
      assert (Hb : D q <= Z.log2 (Z.of_nat (length arr)) + 1).
      { unfold D. rewrite (proj2 (Z.leb_le q _) Hl). apply Z.add_le_mono_r, Z.log2_le_mono.
        apply Z.div_le_upper_bound; nia. }
      assert (Hlog : Z.log2 (Z.of_nat (length arr)) < 32).
      { apply (proj1 (Z.log2_lt_pow2 (Z.of_nat (length arr)) 32 ltac:(lia))). exact Hbd. }
      pose proof (HD (2 * q)). pose proof (HD (2 * q + 1)).
      rewrite (IH (2 * q)) by lia. rewrite (IH (2 * q + 1)) by lia.
      destruct (Z.gtb_spec (D (2 * q)) (D (2 * q + 1)));
        rewrite Z.mod_small by (unfold UINT_MOD; lia); lia.
    + rewrite at_rank_out by lia. cbn [Z.eqb]. unfold D.
      rewrite (proj2 (Z.leb_gt q _)) by lia. reflexivity.
Qed.

(** ** The traversal loops of the selftest *)

Lemma selftest_break_loop_rank (st : state) (arr : list Z) :
  heap_shape st arr ->
  forall fuel j, 1 <= j <= 6 -> j <= Z.of_nat (length arr) + 1 -> 7 - j <= Z.of_nat fuel ->
  selftest_break_loop fuel st (at_rank arr j) j (j - 1) =
    (firstn (Z.to_nat (7 - j)) (skipn (Z.to_nat (j - 1)) arr),
     at_rank arr (Z.min 6 (Z.of_nat (length arr) + 1)),
     Z.min 6 (Z.of_nat (length arr) + 1), Z.min 6 (Z.of_nat (length arr))).
Proof.
  intros Hs. pose proof Hs as (_ & Hbd & _ & _ & Hnn & _).
  induction fuel as [|f IH]; intros j Hj Hjl Hf; [lia|].
  cbn [selftest_break_loop].
  destruct (Z_le_gt_dec j (Z.of_nat (length arr))) as [Hl|Hl].
  - rewrite (proj2 (Z.eqb_neq _ NULL) (at_rank_nonnull arr j Hnn (conj (proj1 Hj) Hl))).
    replace ((j - 1 + 1) mod ULONG_MOD) with j
      by (rewrite Z.mod_small; unfold ULONG_MOD; lia).
    rewrite (skipn_at_rank arr j (conj (proj1 Hj) Hl)).
    change (TEST_LOOP / 2) with 5.
    destruct (Z.eqb_spec (j - 1) 5) as [E|E].
    + assert (j = 6) by lia. subst j.
      rewrite !Z.min_l by lia. reflexivity.
    + unfold heap_level_next.
      rewrite Z.mod_small by (unfold ULONG_MOD, UINT_MOD in *; lia).
      rewrite (heap_find_shape_all st arr (j + 1) Hs) by lia.
      replace j with (j + 1 - 1) at 3 by lia.
      rewrite (IH (j + 1)) by lia.
      replace (Z.to_nat (7 - j)) with (S (Z.to_nat (7 - (j + 1)))) by lia.
      replace (Z.to_nat j) with (Z.to_nat (j + 1 - 1)) by lia.
      reflexivity.
  - assert (Ej : j = Z.of_nat (length arr) + 1) by lia.
    rewrite at_rank_out by lia. cbn [Z.eqb].
    rewrite skipn_all2 by lia. rewrite firstn_nil.
    rewrite !Z.min_r by lia. rewrite at_rank_out by lia.
    subst j. replace (Z.of_nat (length arr) + 1 - 1) with (Z.of_nat (length arr)) by lia.
    reflexivity.
Qed.

Lemma selftest_for_each_break_shape (st : state) (arr : list Z) (fuel : nat) :
  heap_shape st arr -> (6 <= fuel)%nat ->
  selftest_for_each_break fuel st =
    (firstn 6 arr, at_rank arr (Z.min 6 (Z.of_nat (length arr) + 1)),
     Z.min 6 (Z.of_nat (length arr) + 1), Z.min 6 (Z.of_nat (length arr))).
Proof.
  intros Hs Hf. pose proof Hs as (_ & _ & Hroot & _).
  unfold selftest_for_each_break, heap_level_first. rewrite Hroot.
  change 0 with (1 - 1). rewrite (selftest_break_loop_rank st arr Hs fuel 1) by lia.
  reflexivity.
Qed.

Lemma heap_for_each_from_null (fuel : nat) (st : state) (index : Z) :
  heap_for_each_from fuel st NULL index = [].
Proof. destruct fuel; reflexivity. Qed.

End HeapExampleFacts.

(** * Further properties of the library and of its example programs *)

Module HeapExtras.
Import Heap HeapScenario HeapExamples HeapFacts HeapOrderFacts HeapExampleFacts.

Lemma heap_test_cmp_key (a b : Z) : heap_test_cmp a b < 0 <-> num a < num b.
Proof. unfold heap_test_cmp. destruct (Z.ltb_spec (num a) (num b)); lia. Qed.

Lemma heap_shape_st_ins : heap_shape st_ins [101; 102; 103; 104; 105; 106; 107].
Proof. apply heap_shapeb_spec. vm_compute. reflexivity. Qed.

(** X1: with a comparator that orders by [key], [heap_insert] of a new,
    non-NULL node into an ordered complete tree yields an ordered complete
    tree holding the old nodes and the new one. *)
Theorem heap_insert_ordered (key : Z -> Z) (cmp : heap_cmp_t) (st : state) (arr : list Z) (n : Z) :
  (forall a b, cmp a b < 0 <-> key a < key b) ->
  heap_shape st arr -> ~ In n arr -> n <> NULL -> Z.of_nat (length arr) + 1 < UINT_MOD ->
  heap_key_ordered key st = true ->
  exists arr', heap_shape (heap_insert None st n cmp) arr' /\ Permutation (n :: arr) arr' /\
    heap_key_ordered key (heap_insert None st n cmp) = true.
Proof.
  intros Hck Hs Hn Hnn Hb Ho.
  pose proof (proj1 (heap_key_ordered_shape key st arr Hs) Ho) as Hol. clear Ho. rename Hol into Ho.
  destruct (heap_insert_order key cmp Hck st arr n Hs Hn Hnn Hb Ho) as [arr' [Hs' [Hp Ho']]].
  exists arr'. split; [exact Hs'|]. split; [exact Hp|].
  exact (proj2 (heap_key_ordered_shape key _ arr' Hs') Ho').
Qed.

Lemma heap_insert_ordered_witness :
  exists arr', heap_shape (heap_insert None st_ins 108 heap_test_cmp) arr' /\
    Permutation (108 :: [101; 102; 103; 104; 105; 106; 107]) arr' /\
    heap_key_ordered num (heap_insert None st_ins 108 heap_test_cmp) = true.
Proof.
  apply (heap_insert_ordered num heap_test_cmp st_ins [101; 102; 103; 104; 105; 106; 107] 108
           heap_test_cmp_key heap_shape_st_ins).
  - cbn. lia.
  - unfold NULL. lia.
  - unfold UINT_MOD. cbn. lia.
  - vm_compute. reflexivity.
Defined.

(** X2: with a comparator that orders by [key], [heap_delete] of a node of
    an ordered complete tree yields an ordered complete tree of the other
    nodes, provided the deleted node is the root or its parent's key is at
    most the key of the last node (rank [count]), the node [heap_remove]
    moves into its place. *)
Theorem heap_delete_ordered (key : Z -> Z) (cmp : heap_cmp_t) (st : state) (arr : list Z) (n : Z) :
  (forall a b, cmp a b < 0 <-> key a < key b) ->
  heap_shape st arr -> In n arr -> heap_key_ordered key st = true ->
  parent (mem st n) = NULL \/ key (parent (mem st n)) <= key (heap_find st (count (root st))) ->
  exists arr', heap_shape (heap_delete None st n cmp) arr' /\ Permutation arr (n :: arr') /\
    heap_key_ordered key (heap_delete None st n cmp) = true.
Proof.
  intros Hck Hs Hn Ho Hpre. pose proof Hs as (Hc & _ & _ & _ & Hnn & Hm).
  pose proof (proj1 (heap_key_ordered_shape key st arr Hs) Ho) as Hol. clear Ho. rename Hol into Ho.
  destruct (In_at_rank _ _ Hn) as [k [Hk <-]].
  rewrite (Hm k Hk) in Hpre. unfold slot_of in Hpre. cbn [parent] in Hpre.
  rewrite Hc, (heap_find_shape st arr) in Hpre by (auto; lia).
  assert (Hpre' : k = 1 \/ key (at_rank arr (k / 2)) <= key (at_rank arr (Z.of_nat (length arr)))).
  { destruct (Z.eq_dec k 1) as [E|E]; [left; exact E | right].
    destruct Hpre as [Hp|Hp]; [|exact Hp].
    exfalso. refine (at_rank_nonnull arr (k / 2) Hnn _ Hp). lia_div. }
  destruct (heap_delete_order key cmp Hck st arr k Hs Hk Ho Hpre') as [arr' [Hs' [Hp Ho']]].
  exists arr'. split; [exact Hs'|]. split; [exact Hp|].
  exact (proj2 (heap_key_ordered_shape key _ arr' Hs') Ho').
Qed.

Lemma heap_delete_ordered_witness :
  exists arr', heap_shape (heap_delete None st_ins 103 heap_test_cmp) arr' /\
    Permutation [101; 102; 103; 104; 105; 106; 107] (103 :: arr') /\
    heap_key_ordered num (heap_delete None st_ins 103 heap_test_cmp) = true.
Proof.
  apply (heap_delete_ordered num heap_test_cmp st_ins [101; 102; 103; 104; 105; 106; 107] 103
           heap_test_cmp_key heap_shape_st_ins).
  - cbn. tauto.
  - vm_compute. reflexivity.
  - right. vm_compute. discriminate.
Defined.

(** X3: in an ordered complete tree, the node at [root->node] has the
    least key of all the nodes. *)
Theorem heap_root_min (key : Z -> Z) (st : state) (arr : list Z) :
  heap_shape st arr -> heap_key_ordered key st = true ->
  forall x, In x arr -> key (node (root st)) <= key x.
Proof.
  intros Hs Ho x Hx. pose proof Hs as (_ & _ & Hroot & _).
  pose proof (proj1 (heap_key_ordered_shape key st arr Hs) Ho) as Hol. clear Ho. rename Hol into Ho.
  destruct (In_at_rank _ _ Hx) as [q [Hq <-]]. rewrite Hroot.
  exact (layout_root_min key arr Ho q Hq).
Qed.

Lemma heap_root_min_witness :
  num (node (root st_ins)) <= num 106.
Proof.
  apply (heap_root_min num st_ins [101; 102; 103; 104; 105; 106; 107] heap_shape_st_ins).
  - vm_compute. reflexivity.
  - cbn. tauto.
Defined.

(** X4: the deletion loop of the benchmark ([while (bench_root.count)]
    delete [bench_root.node]) run on an ordered complete tree, with a
    comparator that orders by [key], deletes every node once, in
    ascending order of key, and leaves the root empty with a count of 0. *)
Theorem benchmark_drain_sorted (key : Z -> Z) (cmp : heap_cmp_t) (st : state) (arr : list Z)
    (fuel : nat) :
  (forall a b, cmp a b < 0 <-> key a < key b) ->
  heap_shape st arr -> heap_key_ordered key st = true -> (length arr < fuel)%nat ->
  Permutation arr (snd (heap_drain fuel st cmp)) /\
  Sorted (fun a b => key a <= key b) (snd (heap_drain fuel st cmp)) /\
  node (root (fst (heap_drain fuel st cmp))) = NULL /\
  count (root (fst (heap_drain fuel st cmp))) = 0.
Proof.
  intros Hck Hs Ho Hf.
  pose proof (proj1 (heap_key_ordered_shape key st arr Hs) Ho) as Hol. clear Ho. rename Hol into Ho.
  destruct (heap_drain_order key cmp Hck fuel st arr Hs ltac:(lia) Ho) as [(Hc & _ & Hr & _) [Hp Hso]].
  split; [exact Hp|]. split; [exact Hso|]. split; [exact Hr | exact Hc].
Qed.

Lemma benchmark_drain_sorted_witness :
  Permutation [101; 102; 103; 104; 105; 106; 107] (snd (heap_drain 8 st_ins heap_test_cmp)) /\
  Sorted (fun a b => num a <= num b) (snd (heap_drain 8 st_ins heap_test_cmp)) /\
  node (root (fst (heap_drain 8 st_ins heap_test_cmp))) = NULL /\
  count (root (fst (heap_drain 8 st_ins heap_test_cmp))) = 0.
Proof.
  apply (benchmark_drain_sorted num heap_test_cmp st_ins [101; 102; 103; 104; 105; 106; 107] 8
           heap_test_cmp_key heap_shape_st_ins).
  - vm_compute. reflexivity.
  - cbn. lia.
Defined.

(** X5: inserting distinct, non-NULL nodes one after the other into an
    empty root with a comparator that orders by [key] gives an ordered
    complete tree holding exactly those nodes. *)
Theorem heap_insert_seq_ordered (key : Z -> Z) (cmp : heap_cmp_t) (m : Z -> heap_node) (l : list Z) :
  (forall a b, cmp a b < 0 <-> key a < key b) ->
  NoDup l -> ~ In NULL l -> Z.of_nat (length l) < UINT_MOD ->
  exists arr, heap_shape (heap_insert_seq (mk_state m HEAP_INIT) l cmp) arr /\ Permutation l arr /\
    heap_key_ordered key (heap_insert_seq (mk_state m HEAP_INIT) l cmp) = true.
Proof.
  intros Hck Hnd Hnn Hb.
  destruct (heap_insert_seq_order key cmp Hck l (mk_state m HEAP_INIT) [] (heap_shape_init m))
    as [arr [Hs [Hp Ho]]].
  - rewrite app_nil_r. exact Hnd.
  - exact Hnn.
  - cbn [length plus]. exact Hb.
  - intros q Hq. cbn [length Z.of_nat] in Hq. lia.
  - rewrite app_nil_r in Hp. exists arr. split; [exact Hs|]. split; [exact Hp|].
    exact (proj2 (heap_key_ordered_shape key _ arr Hs) Ho).
Qed.

Lemma heap_insert_seq_ordered_witness :
  exists arr, heap_shape (heap_insert_seq st0 nodes heap_test_cmp) arr /\ Permutation nodes arr /\
    heap_key_ordered num (heap_insert_seq st0 nodes heap_test_cmp) = true.
Proof.
  apply (heap_insert_seq_ordered num heap_test_cmp (fun _ => mk_node NULL NULL NULL) nodes
           heap_test_cmp_key).
  - apply nodupb_NoDup. vm_compute. reflexivity.
  - vm_compute. lia.
  - vm_compute. reflexivity.
Defined.

(** X6: inserting distinct, non-NULL nodes into an empty root and then
    running the benchmark's deletion loop yields the nodes sorted by
    [key] (a heap sort), and leaves the root empty. *)
Theorem heap_sort (key : Z -> Z) (cmp : heap_cmp_t) (m : Z -> heap_node) (l : list Z) (fuel : nat) :
  (forall a b, cmp a b < 0 <-> key a < key b) ->
  NoDup l -> ~ In NULL l -> Z.of_nat (length l) < UINT_MOD -> (length l < fuel)%nat ->
  let r := heap_drain fuel (heap_insert_seq (mk_state m HEAP_INIT) l cmp) cmp in
  Permutation l (snd r) /\ Sorted (fun a b => key a <= key b) (snd r) /\
  node (root (fst r)) = NULL /\ count (root (fst r)) = 0.
Proof.
  intros Hck Hnd Hnn Hb Hf r.
  destruct (heap_insert_seq_order key cmp Hck l (mk_state m HEAP_INIT) [] (heap_shape_init m))
    as [arr [Hs [Hp Ho]]].
  - rewrite app_nil_r. exact Hnd.
  - exact Hnn.
  - cbn [length plus]. exact Hb.
  - intros q Hq. cbn [length Z.of_nat] in Hq. lia.
  - rewrite app_nil_r in Hp. pose proof (Permutation_length Hp) as Hl.
    destruct (heap_drain_order key cmp Hck fuel _ arr Hs ltac:(lia) Ho)
      as [(Hc & _ & Hr & _) [Hp' Hso]].
    fold r in Hc, Hr, Hp', Hso.
    split; [exact (perm_trans Hp Hp')|]. split; [exact Hso|]. split; [exact Hr | exact Hc].
Qed.

Lemma heap_sort_witness :
  let r := heap_drain 8 (heap_insert_seq st0 nodes heap_test_cmp) heap_test_cmp in
  Permutation nodes (snd r) /\ Sorted (fun a b => num a <= num b) (snd r) /\
  node (root (fst r)) = NULL /\ count (root (fst r)) = 0.
Proof.
  apply (heap_sort num heap_test_cmp (fun _ => mk_node NULL NULL NULL) nodes 8 heap_test_cmp_key).
  - apply nodupb_NoDup. vm_compute. reflexivity.
  - vm_compute. lia.
  - vm_compute. reflexivity.
  - cbn. lia.
Defined.

(** X7: [test_deepth] of the benchmark, applied to [root->node] of a
    complete tree, returns its height: 0 for an empty tree, otherwise
    [floor (log2 count) + 1]. *)
Theorem test_deepth_height (st : state) (arr : list Z) (fuel : nat) :
  heap_shape st arr -> (length arr <= fuel)%nat ->
  test_deepth fuel (mem st) (node (root st)) =
    if count (root st) =? 0 then 0 else Z.log2 (count (root st)) + 1.
Proof.
  intros Hs Hf. pose proof Hs as (Hc & _ & Hroot & _).
  rewrite Hroot, Hc. rewrite (test_deepth_rank st arr Hs fuel 1); [| lia |].
  - rewrite Z.div_1_r. destruct (Z.eqb_spec (Z.of_nat (length arr)) 0) as [E|E].
    + rewrite E. reflexivity.
    + rewrite (proj2 (Z.leb_le 1 _)) by lia. reflexivity.
  - destruct (Z.leb_spec 1 (Z.of_nat (length arr))); [|lia].
    rewrite Z.div_1_r. pose proof (Z.log2_lt_lin (Z.of_nat (length arr)) ltac:(lia)). lia.
Qed.

Lemma test_deepth_height_witness :
  test_deepth 7 (mem st_ins) (node (root st_ins)) =
    if count (root st_ins) =? 0 then 0 else Z.log2 (count (root st_ins)) + 1.
Proof.
  apply (test_deepth_height st_ins [101; 102; 103; 104; 105; 106; 107] 7 heap_shape_st_ins).
  cbn. lia.
Defined.

(** X8: the six traversal loops of the selftest on a complete tree with
    layout [arr]: the loops with the [break] print the first six nodes,
    the [_continue] loops the nodes after them and the [_from] loops the
    nodes from the sixth on; the last loop, given [&count] for its cursor,
    prints the same nodes as the one given the saved [index]. *)
Theorem selftest_traversals_shape (st : state) (arr : list Z) (fuel : nat) :
  heap_shape st arr -> (length arr < fuel)%nat -> (6 <= fuel)%nat ->
  selftest_traversals fuel st =
    [firstn 6 arr; skipn 6 arr; skipn 5 arr; firstn 6 arr; skipn 6 arr; skipn 5 arr].
Proof.
  intros Hs Hf Hf6. pose proof Hs as (_ & Hbd & _).
  unfold selftest_traversals. rewrite (selftest_for_each_break_shape st arr fuel Hs Hf6).
  cbv beta iota zeta.
  set (len := Z.of_nat (length arr)) in *.
  set (mq := Z.min 6 (len + 1)).
  assert (A : heap_for_each_continue fuel st mq = skipn 6 arr).
  { unfold heap_for_each_continue, heap_level_next.
    rewrite Z.mod_small by (unfold mq, ULONG_MOD; lia).
    rewrite (heap_find_shape_all st arr _ Hs) by (unfold mq; lia).
    rewrite (heap_for_each_from_shape st arr fuel _ Hs) by (unfold mq; lia).
    unfold mq. destruct (Z_le_gt_dec 6 (len + 1)).
    - rewrite Z.min_l by lia. reflexivity.
    - rewrite Z.min_r by lia. rewrite !skipn_all2 by lia. reflexivity. }
  assert (B : heap_for_each_from fuel st (at_rank arr mq) mq = skipn 5 arr).
  { rewrite (heap_for_each_from_shape st arr fuel _ Hs) by (unfold mq; lia).
    unfold mq. destruct (Z_le_gt_dec 6 (len + 1)).
    - rewrite Z.min_l by lia. reflexivity.
    - rewrite Z.min_r by lia. rewrite !skipn_all2 by lia. reflexivity. }
  assert (C : heap_for_each_from fuel st (at_rank arr mq) (Z.min 6 len) = skipn 5 arr).
  { destruct (Z_le_gt_dec 6 len).
    - replace (Z.min 6 len) with mq by (unfold mq; lia). exact B.
    - rewrite (at_rank_out arr mq) by (unfold mq; lia).
      rewrite heap_for_each_from_null, skipn_all2 by lia. reflexivity. }
  rewrite A, B, C. reflexivity.
Qed.

Lemma selftest_traversals_shape_witness :
  selftest_traversals 8 st_ins =
    [[101; 102; 103; 104; 105; 106]; [107]; [106; 107];
     [101; 102; 103; 104; 105; 106]; [107]; [106; 107]].
Proof.
  apply (selftest_traversals_shape st_ins [101; 102; 103; 104; 105; 106; 107] 8 heap_shape_st_ins);
    cbn; lia.
Defined.

(** X9: on a complete tree, [HEAP_EMPTY_ROOT] (a NULL [root->node]) holds
    exactly when the count is 0. *)
Theorem heap_empty_root_count (st : state) (arr : list Z) :
  heap_shape st arr -> HEAP_EMPTY_ROOT st = (count (root st) =? 0).
Proof.
  intros (Hc & _ & Hroot & _ & Hnn & _). unfold HEAP_EMPTY_ROOT. rewrite Hroot, Hc.
  destruct arr as [|x arr]; [reflexivity|].
  rewrite (proj2 (Z.eqb_neq _ NULL)) by (apply at_rank_nonnull; [exact Hnn | cbn [length]; lia]).
  symmetry. apply Z.eqb_neq. cbn [length]. lia.
Qed.

Lemma heap_empty_root_count_witness :
  HEAP_EMPTY_ROOT st_ins = (count (root st_ins) =? 0).
Proof.
  apply (heap_empty_root_count st_ins [101; 102; 103; 104; 105; 106; 107] heap_shape_st_ins).
Defined.

(** X10: after the insert loop of the benchmark (distinct, non-NULL nodes
    inserted into an empty root, with any comparator), the level-order
    iteration [heap_for_each] visits each inserted node exactly once. *)
Theorem heap_insert_seq_for_each (cmp : heap_cmp_t) (m : Z -> heap_node) (l : list Z) (fuel : nat) :
  NoDup l -> ~ In NULL l -> Z.of_nat (length l) < UINT_MOD -> (length l < fuel)%nat ->
  Permutation l (heap_for_each fuel (heap_insert_seq (mk_state m HEAP_INIT) l cmp)).
Proof.
  intros Hnd Hnn Hb Hf.
  destruct (heap_insert_seq_shape cmp l (mk_state m HEAP_INIT) [] (heap_shape_init m))
    as [arr [Hs Hp]]; [rewrite app_nil_r; exact Hnd | exact Hnn | cbn [length plus]; exact Hb |].
  rewrite app_nil_r in Hp. pose proof (Permutation_length Hp) as Hl.
  rewrite (heap_for_each_shape _ arr fuel Hs) by lia. exact Hp.
Qed.

Lemma heap_insert_seq_for_each_witness :
  Permutation nodes (heap_for_each 8 (heap_insert_seq st0 nodes (fun _ _ => -1))).
Proof.
  apply (heap_insert_seq_for_each (fun _ _ => -1) (fun _ => mk_node NULL NULL NULL) nodes 8).
  - apply nodupb_NoDup. vm_compute. reflexivity.
  - vm_compute. lia.
  - vm_compute. reflexivity.
  - cbn. lia.
Defined.

End HeapExtras.
